(** * Identifier and name assignment (lib/ids/IdHelpers.js) and
      SystemLibraryPlugin.parseOptions

    A shallow embedding of the id helpers of the bundler and of the option
    parser of the System.js library plugin, followed by the properties
    established about them.

    Conventions of the embedding.
    - JavaScript strings are [string]s; [charCodeAt] is the code of the
      character, [length] the number of characters.
    - JavaScript numbers on which the code computes or which it converts
      to and from strings are IEEE doubles, [JSNumber.number]: the
      accumulator and the result of [getHashNumber], the deterministic ids,
      the number behind [avoidNumber].  Numbers that only count -- loop
      counters, widths, the ascending ids -- are integers, [Z].
    - [Set<string>] is [gset string]; the insertion-ordered [Map<string, T[]>]
      of [assignNames] is an association list, because its iteration order
      is observable.
    - Callbacks with effects ([assignName], [assignId]) are modelled by the
      trace of their calls, in call order.
    - [createHash("md4")] is an external primitive: the function from a
      string to the hex rendering of its digest is a parameter [md4] of
      every definition that hashes. *)

From Stdlib Require Import ZArith Lia List String Ascii Bool.
From Stdlib Require Import DecimalString DecimalZ.
From Stdlib Require Import Sorting.Permutation Sorting.Sorted.
From stdpp Require Import base gmap strings list sets.

Open Scope Z_scope.

(** ** Primitives of the language *)

Module JS.

(** [s.charCodeAt(i)] for the character [c] found at index [i]. *)
Definition charCode (c : ascii) : Z := Z.of_N (N_of_ascii c).

(** [n + ""] for an integral number [n]: its decimal numeral, with a
    leading minus sign when negative. *)
Definition numToString (n : Z) : string :=
  NilZero.string_of_int (Z.to_int n).

(** [s.slice(start, stop)]: negative indices count from the end, and both
    ends are clamped to the string. *)
Definition slice (s : string) (start stop : Z) : string :=
  let len := Z.of_nat (String.length s) in
  let from := if start <? 0 then Z.max (len + start) 0 else Z.min start len in
  let to := if stop <? 0 then Z.max (len + stop) 0 else Z.min stop len in
  substring (Z.to_nat from) (Z.to_nat (Z.max (to - from) 0)) s.

(** [s.substr(0, len)]. *)
Definition substr0 (s : string) (len : Z) : string :=
  substring 0 (Z.to_nat len) s.

(** [arr.join(sep)]. *)
Definition join (sep : string) (arr : list string) : string :=
  String.concat sep arr.

(** [arr.sort(comparator)], as a stable insertion sort: [comparator a b > 0]
    puts [a] after [b].  For a comparator that is a total preorder every
    conforming engine returns this list (the sort is stable). *)
Section Sort.
Context {T : Type} (comparator : T -> T -> Z).

Fixpoint insert (x : T) (l : list T) : list T :=
  match l with
  | [] => [x]
  | y :: l' => if 0 <? comparator x y then y :: insert x l' else x :: l
  end.

Definition sort (l : list T) : list T := foldr insert [] l.
End Sort.

(** The default comparator of [arr.sort()]: strings compared by code
    units.  The result is [-1], [0] or [1]. *)
Fixpoint compareStrings (a b : string) : Z :=
  match a, b with
  | EmptyString, EmptyString => 0
  | EmptyString, String _ _ => -1
  | String _ _, EmptyString => 1
  | String x a', String y b' =>
      if charCode x <? charCode y then -1
      else if charCode y <? charCode x then 1
      else compareStrings a' b'
  end.

End JS.

(** ** Orders given by a comparator *)

Section Comparators.
Context {T : Type} (comparator : T -> T -> Z).

(** [a] may stand before [b] *)
Definition cmp_le (a b : T) : Prop := comparator a b <= 0.

(** the comparator is a total order on the items of [l] *)
Record totalOrderOn (l : list T) : Prop := {
  total_on : forall a b, a ∈ l -> b ∈ l ->
    0 < comparator a b -> comparator b a <= 0;
  trans_on : forall a b c, a ∈ l -> b ∈ l -> c ∈ l ->
    comparator a b <= 0 -> comparator b c <= 0 -> comparator a c <= 0;
  antisym_on : forall a b, a ∈ l -> b ∈ l ->
    comparator a b <= 0 -> comparator b a <= 0 -> a = b
}.

(** every item stands before all the later ones *)
Fixpoint ordered (l : list T) : Prop :=
  match l with
  | [] => True
  | x :: l' => (forall y, y ∈ l' -> comparator x y <= 0) /\ ordered l'
  end.
End Comparators.

Arguments total_on {T comparator l}.
Arguments trans_on {T comparator l}.
Arguments antisym_on {T comparator l}.

(** ** Character classes *)

Module CharClass.
Definition inRange (lo hi : Z) (c : ascii) : bool :=
  (lo <=? JS.charCode c) && (JS.charCode c <=? hi).

(** the characters 0 to 9 *)
Definition isDecimalDigit (c : ascii) : bool :=
  (48 <=? JS.charCode c) && (JS.charCode c <? 58).

(** the characters of a hex digest: 0 to 9 and a to f *)
Definition isLowerHex (c : ascii) : bool :=
  isDecimalDigit c || ((97 <=? JS.charCode c) && (JS.charCode c <? 103)).

(** the class [[a-zA-Z0-9_-]] *)
Definition isIdChar (c : ascii) : bool :=
  inRange 97 122 c || inRange 65 90 c || inRange 48 57 c
  || Ascii.eqb c "_" || Ascii.eqb c "-".

Fixpoint allChars (p : ascii -> bool) (s : string) : bool :=
  match s with
  | EmptyString => true
  | String c s' => p c && allChars p s'
  end.

(** the string matches [^[A-Za-z0-9_-]+$] *)
Definition matchesIdPattern (s : string) : bool :=
  negb (String.eqb s "") && allChars isIdChar s.

(** a hex digest: lower-case hexadecimal digits only *)
Definition isHexDigest (s : string) : bool := allChars isLowerHex s.
End CharClass.

(** ** Numbers: IEEE 754 doubles, unary [+] on a string and [n + ""]

    A number is NaN, an infinity or a finite double.  A finite double is
    given by its exact value: [Int n] is the integer [n], of magnitude below
    2^53, and [Double m e] is [m * 2^e] with [m] odd, for every other finite
    double.  Both zeros are [Int 0]: the id helpers only multiply, add,
    compare and print numbers, and none of these tells the zeros apart
    (both print as "0").  Every arithmetic operation returns the double
    nearest to the exact result, ties to even. *)

Module JSNumber.
Import CharClass.

Inductive number : Type :=
| NaN
| Infinity (negative : bool)
| Int (n : Z)
| Double (m e : Z).

Definition isSafeInteger (n : Z) : bool := Z.abs n <? 2 ^ 53.

Definition eqb (x y : number) : bool :=
  match x, y with
  | NaN, NaN => true
  | Infinity a, Infinity b => Bool.eqb a b
  | Int a, Int b => a =? b
  | Double m e, Double m' e' => (m =? m') && (e =? e')
  | _, _ => false
  end.

(** *** Rounding a rational to the nearest double *)

(** the floor of the binary logarithm of [n / d], for positive [n], [d] *)
Definition log2Ratio (n d : Z) : Z :=
  let e := Z.log2 n - Z.log2 d in
  if (if 0 <=? e then d * 2 ^ e <=? n else d <=? n * 2 ^ (- e))
  then e else e - 1.

(** [n / d] rounded to the nearest integer, ties to the even one *)
Definition divRoundEven (n d : Z) : Z :=
  let q := n / d in
  let r := n mod d in
  if (d <? 2 * r) || ((2 * r =? d) && Z.odd q) then q + 1 else q.

(** The double nearest to [n / d] for positive [n] and [d], as the pair
    [(m, e)] of its value [m * 2^e]: 53 bits of precision, exponents from
    -1074 (subnormals); [None] when the result is too large for a double. *)
Definition roundPositive (n d : Z) : option (Z * Z) :=
  let e := Z.max (log2Ratio n d - 52) (-1074) in
  let m := if 0 <=? e then divRoundEven n (d * 2 ^ e)
           else divRoundEven (n * 2 ^ (- e)) d in
  if (971 <? e) || ((e =? 971) && (2 ^ 53 <=? m)) then None
  else Some (m, e).

(** [m * 2^e] with the factors two moved from [m] to the exponent *)
Fixpoint oddPart (fuel : nat) (m e : Z) : Z * Z :=
  match fuel with
  | O => (m, e)
  | S fuel' => if Z.even m then oddPart fuel' (m / 2) (e + 1) else (m, e)
  end.

(** the number with the value [m * 2^e], for [0 < |m| <= 2^53] *)
Definition ofBinary (m e : Z) : number :=
  let (m', e') := oddPart 64 m e in
  if (0 <=? e') && isSafeInteger (m' * 2 ^ e') then Int (m' * 2 ^ e')
  else Double m' e'.

(** the double nearest to [n / d], for [d > 0] *)
Definition round (n d : Z) : number :=
  if (d =? 1) && isSafeInteger n then Int n
  else if n =? 0 then Int 0
  else
    match roundPositive (Z.abs n) d with
    | Some (m, e) => if m =? 0 then Int 0 else ofBinary (Z.sgn n * m) e
    | None => Infinity (n <? 0)
    end.

Definition ofInteger (n : Z) : number := round n 1.

(** the double nearest to the integer [n], as an integer: the value of a
    number that holds an integer after an operation with the exact
    result [n] *)
Definition roundInteger (n : Z) : Z :=
  match round n 1 with
  | Int k => k
  | Double m e => m * 2 ^ e
  | _ => n
  end.

(** [m * 2^e] as a numerator and a positive denominator *)
Definition fraction (m e : Z) : Z * Z :=
  if 0 <=? e then (m * 2 ^ e, 1) else (m, 2 ^ (- e)).

(** the exact value of a finite number *)
Definition value (x : number) : option (Z * Z) :=
  match x with
  | Int n => Some (n, 1)
  | Double m e => Some (fraction m e)
  | _ => None
  end.

Definition isNegative (x : number) : bool :=
  match x with
  | NaN => false
  | Infinity b => b
  | Int n => n <? 0
  | Double m _ => m <? 0
  end.

Definition isZero (x : number) : bool :=
  match x with
  | Int n => n =? 0
  | _ => false
  end.

Definition negate (x : number) : number :=
  match x with
  | NaN => NaN
  | Infinity b => Infinity (negb b)
  | Int n => Int (- n)
  | Double m e => Double (- m) e
  end.

(** [x * y] *)
Definition mul (x y : number) : number :=
  match value x, value y with
  | Some (n1, d1), Some (n2, d2) => round (n1 * n2) (d1 * d2)
  | _, _ =>
      match x, y with
      | NaN, _ | _, NaN => NaN
      | _, _ =>
          if isZero x || isZero y then NaN
          else Infinity (xorb (isNegative x) (isNegative y))
      end
  end.

(** [x + y] *)
Definition add (x y : number) : number :=
  match value x, value y with
  | Some (n1, d1), Some (n2, d2) => round (n1 * d2 + n2 * d1) (d1 * d2)
  | _, _ =>
      match x, y with
      | NaN, _ | _, NaN => NaN
      | Infinity a, Infinity b => if Bool.eqb a b then Infinity a else NaN
      | Infinity a, _ | _, Infinity a => Infinity a
      | _, _ => NaN
      end
  end.

(** [Math.pow(10, e)] for an integer [e]: the double nearest to the power
    (the language leaves the precision of [Math.pow] to the engine; the
    engines return the nearest double for the integer powers of ten).
    The powers from 10^401 on are too large for a double, those below
    10^-400 round to zero. *)
Definition pow10 (e : Z) : number :=
  if e <? 0 then
    if e <? -400 then Int 0 else round 1 (10 ^ (- e))
  else if 400 <? e then Infinity false
  else round (10 ^ e) 1.

(** the value [m * 10^e] as a double.  A non-zero [m] times a power from
    10^401 on is too large for a double; [m] times a power of ten below
    [2^-1200 / m] rounds to zero. *)
Definition ofDecimal (m e : Z) : number :=
  if m =? 0 then Int 0
  else if 0 <=? e then
    if 400 <? e then Infinity (m <? 0) else round (m * 10 ^ e) 1
  else if Z.log2 (Z.abs m) + 1200 <? 3 * (- e) then Int 0
  else round m (10 ^ (- e)).

(** *** [Number::toString], radix 10 *)

(** [10^p <= n / d], for positive [n], [d] *)
Definition atLeastPow10 (n d p : Z) : bool :=
  if 0 <=? p then d * 10 ^ p <=? n else d <=? n * 10 ^ (- p).

Fixpoint lowerExponent (fuel : nat) (n d p : Z) : Z :=
  match fuel with
  | O => p
  | S fuel' => if atLeastPow10 n d p then p else lowerExponent fuel' n d (p - 1)
  end.

Fixpoint raiseExponent (fuel : nat) (n d p : Z) : Z :=
  match fuel with
  | O => p
  | S fuel' =>
      if atLeastPow10 n d (p + 1) then raiseExponent fuel' n d (p + 1) else p
  end.

(** the floor of the decimal logarithm of [n / d], for positive [n], [d]:
    an estimate from the binary logarithm, corrected by comparison *)
Definition log10Ratio (n d : Z) : Z :=
  let estimate := (log2Ratio n d * 30103) / 100000 in
  raiseExponent 8 n d (lowerExponent 8 n d estimate).

(** the two integers next to [n / d * 10^(- scale)], the nearer one first *)
Definition neighbours (n d scale : Z) : list Z :=
  let (n', d') := if 0 <=? scale then (n, d * 10 ^ scale)
                  else (n * 10 ^ (- scale), d) in
  let q := n' / d' in
  let r := n' mod d' in
  if d' <? 2 * r then [q + 1; q]
  else if (2 * r =? d') && Z.odd q then [q + 1; q]
  else [q; q + 1].

(** [s * 10^scale] rounds to [x] *)
Definition roundsTo (x : number) (scale : Z) (s : Z) : bool :=
  (0 <? s) && eqb (ofDecimal s scale) x.

(** Digits for the positive double [x = n / d]: the integer [s] with the
    fewest digits [k] for which [s * 10^(p - k)] rounds to [x], the
    nearest to [x] when there are several; the result is [(s, p - k)].
    [p] is the number of digits of the integer part of [x]. *)
Fixpoint shortest (fuel : nat) (x : number) (n d p k : Z) : Z * Z :=
  match fuel with
  | O => (n, 0)
  | S fuel' =>
      match List.find (roundsTo x (p - k)) (neighbours n d (p - k)) with
      | Some s => (s, p - k)
      | None => shortest fuel' x n d p (k + 1)
      end
  end.

Fixpoint zeros (n : nat) : string :=
  match n with
  | O => EmptyString
  | S n' => String "0" (zeros n')
  end.

Fixpoint dropTrailingZeros (s : string) : string :=
  match s with
  | EmptyString => EmptyString
  | String c s' =>
      let t := dropTrailingZeros s' in
      if Ascii.eqb c "0" && String.eqb t "" then EmptyString else String c t
  end.

(** the string for the digits [ds], not ending in a zero, and the
    exponent [n]: the value is [0.ds * 10^n] *)
Definition format (ds : string) (n : Z) : string :=
  let k := Z.of_nat (String.length ds) in
  if (k <=? n) && (n <=? 21) then ds +:+ zeros (Z.to_nat (n - k))
  else if (0 <? n) && (n <=? 21) then
    substring 0 (Z.to_nat n) ds +:+ "."
    +:+ substring (Z.to_nat n) (Z.to_nat (k - n)) ds
  else if (-6 <? n) && (n <=? 0) then
    "0." +:+ zeros (Z.to_nat (- n)) +:+ ds
  else
    let e := n - 1 in
    let exponent :=
      (if e <? 0 then "-" else "+") +:+ NilZero.string_of_int (Z.to_int (Z.abs e)) in
    match ds with
    | String c EmptyString => ds +:+ "e" +:+ exponent
    | String c rest => String c ("." +:+ rest) +:+ "e" +:+ exponent
    | EmptyString => EmptyString
    end.

(** the string of the positive double [x] with the value [n / d] *)
Definition positiveToString (x : number) (n d : Z) : string :=
  let p := log10Ratio n d + 1 in
  let (s, scale) := shortest 800 x n d p 1 in
  let all := JS.numToString s in
  format (dropTrailingZeros all) (Z.of_nat (String.length all) + scale).

Definition toString (x : number) : string :=
  match x with
  | NaN => "NaN"
  | Infinity false => "Infinity"
  | Infinity true => "-Infinity"
  | Int n => JS.numToString n
  | Double m e =>
      let (n, d) := fraction (Z.abs m) e in
      (if m <? 0 then "-" else "")
      +:+ positiveToString (Double (Z.abs m) e) n d
  end.

(** *** [StringToNumber] *)

(** white space and line terminators among the 8-bit characters *)
Definition isWhiteSpace (c : ascii) : bool :=
  existsb (Z.eqb (JS.charCode c)) [9; 10; 11; 12; 13; 32; 160].

Fixpoint trimStart (s : string) : string :=
  match s with
  | EmptyString => EmptyString
  | String c s' => if isWhiteSpace c then trimStart s' else s
  end.

Fixpoint trimEnd (s : string) : string :=
  match s with
  | EmptyString => EmptyString
  | String c s' =>
      let t := trimEnd s' in
      if isWhiteSpace c && String.eqb t "" then EmptyString else String c t
  end.

(** the value of a digit of a hexadecimal, octal or binary literal *)
Definition digitValue (c : ascii) : option Z :=
  let code := JS.charCode c in
  if (48 <=? code) && (code <=? 57) then Some (code - 48)
  else if (97 <=? code) && (code <=? 102) then Some (code - 87)
  else if (65 <=? code) && (code <=? 70) then Some (code - 55)
  else None.

Definition isDigitIn (base : Z) (c : ascii) : bool :=
  match digitValue c with
  | Some v => v <? base
  | None => false
  end.

Fixpoint readDigits (base : Z) (acc : Z) (ds : string) : Z :=
  match ds with
  | EmptyString => acc
  | String c ds' =>
      readDigits base (acc * base + default 0 (digitValue c)) ds'
  end.

(** the value of a string of decimal digits *)
Definition decimalValue (ds : string) : Z :=
  match NilEmpty.uint_of_string ds with
  | Some d => Z.of_uint d
  | None => 0
  end.

(** the longest prefix of characters satisfying [p], and what follows it *)
Fixpoint span (p : ascii -> bool) (s : string) : string * string :=
  match s with
  | EmptyString => (EmptyString, EmptyString)
  | String c s' =>
      if p c then let (a, b) := span p s' in (String c a, b)
      else (EmptyString, s)
  end.

Definition isDigits (s : string) : bool :=
  negb (String.eqb s "") && allChars isDecimalDigit s.

(** ExponentPart(opt), which must end the literal *)
Definition parseExponent (r : string) : option Z :=
  match r with
  | EmptyString => Some 0
  | String c r' =>
      if Ascii.eqb c "e" || Ascii.eqb c "E" then
        match r' with
        | EmptyString => None
        | String sign ds =>
            if Ascii.eqb sign "+" then
              if isDigits ds then Some (decimalValue ds) else None
            else if Ascii.eqb sign "-" then
              if isDigits ds then Some (- decimalValue ds) else None
            else if isDigits r' then Some (decimalValue r') else None
        end
      else None
  end.

(** StrUnsignedDecimalLiteral; [None] when the string is not one *)
Definition parseUnsignedDecimal (body : string) : option number :=
  if String.eqb body "Infinity" then Some (Infinity false)
  else
    let (ip, r1) := span isDecimalDigit body in
    let (fp, r2) :=
      match r1 with
      | EmptyString => (EmptyString, r1)
      | String c r => if Ascii.eqb c "." then span isDecimalDigit r
                      else (EmptyString, r1)
      end in
    if String.eqb ip "" && String.eqb fp "" then None
    else
      match parseExponent r2 with
      | Some e =>
          Some (ofDecimal (decimalValue (ip +:+ fp))
                          (e - Z.of_nat (String.length fp)))
      | None => None
      end.

(** StrDecimalLiteral: an optional sign and an unsigned literal *)
Definition parseDecimal (t : string) : number :=
  match t with
  | EmptyString => NaN
  | String c body =>
      if Ascii.eqb c "+" then default NaN (parseUnsignedDecimal body)
      else if Ascii.eqb c "-" then
        negate (default NaN (parseUnsignedDecimal body))
      else default NaN (parseUnsignedDecimal t)
  end.

(** the digits of a literal that starts with 0x, 0o or 0b *)
Definition parseNonDecimal (base : Z) (ds : string) : number :=
  if negb (String.eqb ds "") && allChars (isDigitIn base) ds
  then ofInteger (readDigits base 0 ds)
  else NaN.

(** [StringToNumber]: the operation behind unary [+] on a string *)
Definition StringToNumber (s : string) : number :=
  let t := trimEnd (trimStart s) in
  match t with
  | EmptyString => Int 0
  | String c0 EmptyString => parseDecimal t
  | String c0 (String c1 ds) =>
      if Ascii.eqb c0 "0" && (Ascii.eqb c1 "x" || Ascii.eqb c1 "X")
      then parseNonDecimal 16 ds
      else if Ascii.eqb c0 "0" && (Ascii.eqb c1 "o" || Ascii.eqb c1 "O")
      then parseNonDecimal 8 ds
      else if Ascii.eqb c0 "0" && (Ascii.eqb c1 "b" || Ascii.eqb c1 "B")
      then parseNonDecimal 2 ds
      else parseDecimal t
  end.

(** the string converts to a number other than NaN *)
Definition parsesAsNumber (s : string) : bool :=
  match StringToNumber s with
  | NaN => false
  | _ => true
  end.

(** an integer held by [Int] is of magnitude below 2^53 *)
Definition tracked (x : number) : Prop :=
  match x with
  | Int n => Z.abs n < 2 ^ 53
  | _ => True
  end.

(** NaN, an infinity or an integer of magnitude below 2^53 *)
Definition isIntegral (x : number) : bool :=
  match x with
  | Double _ _ => false
  | _ => true
  end.

End JSNumber.

(** [avoidNumber]: the test [str === +str + ""] *)
Definition avoidNumber (str : string) : string :=
  if String.eqb str (JSNumber.toString (JSNumber.StringToNumber str))
  then "_" +:+ str
  else str.

(** the strings that [n + ""] produces for NaN, the infinities and the
    integers of magnitude below 2^53 *)
Definition isCanonicalInteger (s : string) : Prop :=
  s = "NaN" \/ s = "Infinity" \/ s = "-Infinity"
  \/ exists n, Z.abs n < 2 ^ 53 /\ s = JS.numToString n.
(** ** Hash primitives: [getHash], [getHashNumber] *)

Section HashPrimitives.
(** [md4 str] is [createHash("md4").update(str).digest("hex")]. *)
Variable md4 : string -> string.

Definition getHash (str : string) (len : Z) : string :=
  JS.substr0 (md4 str) len.

(** The [for] loop of [getHashNumber] over the characters of the digest
    that are still to be read, with the current values of [result] and
    [len]; the last case is the statement after the loop.  [result] is a
    double and every operation on it rounds.  [len] holds an integer and
    is only decremented and compared. *)
Fixpoint getHashNumber_loop (digest : string) (result : JSNumber.number)
    (len : Z) : JSNumber.number :=
  match digest with
  | EmptyString =>
      JSNumber.mul
        (JSNumber.add (JSNumber.mul result (JSNumber.Int 10)) (JSNumber.Int 1))
        (JSNumber.pow10 (JSNumber.roundInteger (len - 1)))
  | String c digest' =>
      let charCode := JS.charCode c in
      if charCode <? 58 then
        let result :=
          JSNumber.add (JSNumber.mul result (JSNumber.Int 10))
                       (JSNumber.Int (charCode - 48)) in
        let len := JSNumber.roundInteger (len - 1) in
        if len <? 1 then result
        else getHashNumber_loop digest' result len
      else getHashNumber_loop digest' result len
  end.

Definition getHashNumber (str : string) (len : Z) : JSNumber.number :=
  getHashNumber_loop (md4 str) (JSNumber.Int 0) len.
End HashPrimitives.

(** What the specification says [getHashNumber] computes from a digest:
    the decimal digits of the digest read as a base-10 numeral, cut after
    [maxDigits] digits, or padded with a [1] and zeros when there are fewer. *)
Module HashSpec.
Import CharClass.

Fixpoint decimalDigits (digest : string) : list Z :=
  match digest with
  | EmptyString => []
  | String c digest' =>
      if isDecimalDigit c then (JS.charCode c - 48) :: decimalDigits digest'
      else decimalDigits digest'
  end.

(** base-10 accumulation of the digits [ds] onto [acc] *)
Definition accumulate (acc : Z) (ds : list Z) : Z :=
  fold_left (fun a d => a * 10 + d) ds acc.

(** the loop of [getHashNumber] in exact integer arithmetic *)
Fixpoint exactLoop (digest : string) (result len : Z) : Z :=
  match digest with
  | EmptyString => (result * 10 + 1) * 10 ^ (len - 1)
  | String c digest' =>
      if JS.charCode c <? 58 then
        let result := result * 10 + (JS.charCode c - 48) in
        let len := len - 1 in
        if len <? 1 then result
        else exactLoop digest' result len
      else exactLoop digest' result len
  end.

Definition hashToBoundedInt (digest : string) (maxDigits : Z) : Z :=
  let ds := decimalDigits digest in
  let k := maxDigits - Z.of_nat (length ds) in
  if k <=? 0 then accumulate 0 (take (Z.to_nat maxDigits) ds)
  else (accumulate 0 ds * 10 + 1) * 10 ^ (k - 1).
End HashSpec.

(** ** Name derivation: [requestToId], [shortenLongString] *)

(** [request.replace(/^(\.\.?\/)+/, "")]: the longest prefix made of
    segments "./" and "../" is removed. *)
Fixpoint stripRelativePrefix (request : string) : string :=
  match request with
  | String "." (String "/" rest) => stripRelativePrefix rest
  | String "." (String "." (String "/" rest)) => stripRelativePrefix rest
  | _ => request
  end.

(** One character matched by the group [(^[.-]|[^a-zA-Z0-9_-])]: a dot or a
    hyphen at index 0 of the string, or a character outside the class. *)
Definition matchesGroup (atStart : bool) (c : ascii) : bool :=
  (atStart && (Ascii.eqb c "." || Ascii.eqb c "-")) || negb (CharClass.isIdChar c).

(** [s.replace(/(^[.-]|[^a-zA-Z0-9_-])+/g, "_")]: every maximal run of
    characters matched by the group becomes one underscore.  [atStart]
    tells that the next character is at index 0, [inRun] that the previous
    character belongs to a run already replaced. *)
Fixpoint replaceRuns (atStart inRun : bool) (s : string) : string :=
  match s with
  | EmptyString => EmptyString
  | String c s' =>
      if matchesGroup atStart c then
        if inRun then replaceRuns false true s'
        else String "_" (replaceRuns false true s')
      else String c (replaceRuns false false s')
  end.

Definition requestToId (request : string) : string :=
  replaceRuns true false (stripRelativePrefix request).

Section ShortenLongString.
Variable md4 : string -> string.

Definition shortenLongString (string_ delimiter : string) : string :=
  if Z.of_nat (String.length string_) <? 100 then string_
  else
    JS.slice string_ 0 (100 - 6 - Z.of_nat (String.length delimiter))
    +:+ delimiter +:+ getHash md4 string_ 6.
End ShortenLongString.

(** ** Families of strings, for counting arguments about [getHash] *)

Module Words.
(** all strings of length [n] over the characters of [alphabet] *)
Fixpoint words (alphabet : list ascii) (n : nat) : list string :=
  match n with
  | O => [EmptyString]
  | S n' => alphabet ≫= (fun c => String c <$> words alphabet n')
  end.

Definition bits : list bool := [false; true].

(** the 256 characters *)
Definition allAscii : list ascii :=
  b0 ← bits; b1 ← bits; b2 ← bits; b3 ← bits;
  b4 ← bits; b5 ← bits; b6 ← bits; b7 ← bits;
  [Ascii b0 b1 b2 b3 b4 b5 b6 b7].

(** all strings of at most 6 characters: every value that [getHash _ 6]
    can take, whatever the digest function is *)
Definition upTo6 : list string :=
  words allAscii 0 ++ words allAscii 1 ++ words allAscii 2
  ++ words allAscii 3 ++ words allAscii 4 ++ words allAscii 5
  ++ words allAscii 6.

(** [n] copies of the character [c] *)
Fixpoint repeatChar (c : ascii) (n : nat) : string :=
  match n with
  | O => EmptyString
  | S n' => String c (repeatChar c n')
  end.

(** a family of 2^49 strings of 150 characters that share their first 101
    characters *)
Definition longInputs : list string :=
  String.append (repeatChar "a" 101) <$> words ["a"; "b"]%char 49.
End Words.

(** ** Modules and chunks *)

(** an id: [string | number] *)
Inductive Id : Type :=
| IdNumber (n : Z)
| IdString (s : string).

(** [id + ""] *)
Definition idToString (id : Id) : string :=
  match id with
  | IdNumber n => JS.numToString n
  | IdString s => s
  end.

(** A module, as far as the id helpers read it: [identifier()] and
    [libIdent({ context })], which is [null] for a module without one. *)
Record Module : Type := {
  identifier : string;
  libIdent : string -> option string
}.

(** The fields of a chunk that the id helpers read or write.  [idNameHints]
    is a sortable set of strings, kept as the list of its elements in
    iteration order. *)
Record Chunk : Type := {
  name : option string;
  id : option Id;
  ids : option (list Id);
  idNameHints : list string
}.

(** Modelled from the spec: [SortableSet.sort] (lib/util/SortableSet.js) is
    not among the sources.  The hints are "an ordered set of free-form hint
    strings" and candidate names join "the chunk's sorted idNameHints": the
    call reorders the elements of the set in place, in ascending order of
    the default comparison of strings. *)
Definition SortableSet_sort (elements : list string) : list string :=
  JS.sort JS.compareStrings elements.

Section ChunkNames.
Variable md4 : string -> string.
(** [makePathsRelative(context, identifier)] of util/identifier *)
Variable makePathsRelative : string -> string -> string.
(** [chunkGraph.getChunkRootModules(chunk)] *)
Variable getChunkRootModules : Chunk -> list Module.

(** [avoidNumber(module.libIdent({ context }) || "")] *)
Definition getShortModuleName (module : Module) (context : string)
  : string :=
  avoidNumber
    (match libIdent module context with
     | Some ident => if String.eqb ident "" then "" else ident
     | None => ""
     end).

Definition getFullModuleName (module : Module) (context : string) : string :=
  makePathsRelative context (identifier module).

Definition getLongModuleName (shortName : string) (module : Module)
    (context : string) : string :=
  let fullName := getFullModuleName module context in
  shortName +:+ "?" +:+ getHash md4 fullName 4.

(** [getShortChunkName]: the name, and the chunk as the call leaves it *)
Definition getShortChunkName (chunk : Chunk) (context delimiter : string)
  : string * Chunk :=
  let modules := getChunkRootModules chunk in
  let shortModuleNames :=
    map (fun m => requestToId (getShortModuleName m context)) modules in
  let chunk :=
    {| name := name chunk; id := id chunk; ids := ids chunk;
       idNameHints := SortableSet_sort (idNameHints chunk) |} in
  let chunkName :=
    JS.join delimiter (idNameHints chunk ++ shortModuleNames) in
  (shortenLongString md4 chunkName delimiter, chunk).

Definition getLongChunkName (chunk : Chunk) (context delimiter : string)
  : string * Chunk :=
  let modules := getChunkRootModules chunk in
  let shortModuleNames :=
    map (fun m => requestToId (getShortModuleName m context)) modules in
  let longModuleNames :=
    map (fun m => requestToId (getLongModuleName "" m context)) modules in
  let chunk :=
    {| name := name chunk; id := id chunk; ids := ids chunk;
       idNameHints := SortableSet_sort (idNameHints chunk) |} in
  let chunkName :=
    JS.join delimiter
      (idNameHints chunk ++ shortModuleNames ++ longModuleNames) in
  (shortenLongString md4 chunkName delimiter, chunk).

Definition getFullChunkName (chunk : Chunk) (context : string) : string :=
  match name chunk with
  | Some n =>
      if String.eqb n "" then
        JS.join "," (map (fun m => makePathsRelative context (identifier m))
                         (getChunkRootModules chunk))
      else n
  | None =>
      JS.join "," (map (fun m => makePathsRelative context (identifier m))
                       (getChunkRootModules chunk))
  end.
End ChunkNames.

(** ** Loops that look for a free number *)

(** [while (taken(i)) i++], for a condition that holds for fewer than [fuel]
    numbers; the result is the value of [i] when the loop is left. *)
Fixpoint firstFree (fuel : nat) (taken : Z -> bool) (i : Z) : Z :=
  match fuel with
  | O => i
  | S fuel' => if taken i then firstFree fuel' taken (i + 1) else i
  end.

(** [usedIds.has(s)] *)
Definition has (usedIds : gset string) (s : string) : bool :=
  bool_decide (s ∈ usedIds).

(** ** The name collision resolver: [assignNames] *)

Section AssignNames.
Context {T : Type}.
Variable getShortName : T -> string.
Variable getLongName : T -> string -> string.
Variable comparator : T -> T -> Z.

(** [Map<string, T[]>]: the entries in insertion order *)
Definition MapOfItems : Type := list (string * list T).

Fixpoint addToMapOfItems (map : MapOfItems) (key : string) (value : T)
  : MapOfItems :=
  match map with
  | [] => [(key, [value])]
  | (k, array) :: map' =>
      if String.eqb k key then (k, array ++ [value]) :: map'
      else (k, array) :: addToMapOfItems map' key value
  end.

(** [map.has(key)] *)
Definition mapHas (map : MapOfItems) (key : string) : bool :=
  existsb (fun entry => String.eqb (fst entry) key) map.

(** the first loop: items grouped by short name *)
Definition groupByShortName (items : list T) : MapOfItems :=
  fold_left (fun map item => addToMapOfItems map (getShortName item) item)
            items [].

(** the second loop: buckets of several items, or with an empty name, are
    regrouped by long name *)
Definition regroup (nameToItems : MapOfItems) : MapOfItems :=
  fold_left
    (fun map2 entry =>
       let '(name, items) := entry in
       if (1 <? Z.of_nat (length items)) || String.eqb name "" then
         fold_left
           (fun map2 item => addToMapOfItems map2 (getLongName item name) item)
           items map2
       else
         match items with
         | item :: _ => addToMapOfItems map2 name item
         | [] => map2 (* no bucket is empty *)
         end)
    nameToItems [].

(** the state of the third loop: the set [usedIds], the calls of
    [assignName] made so far, and [unnamedItems] *)
Record NamingState : Type := {
  usedIds : gset string;
  assigned : list (T * string);
  unnamedItems : list T
}.

(** The body of [for (const item of items)] in the last branch: [i] is
    advanced by the [while] loop, the item is named, the name is added to
    [usedIds] and [i] is incremented. *)
Definition assignNumbered (nameToItems2 : MapOfItems) (name : string)
    (acc : Z * NamingState) (item : T) : Z * NamingState :=
  let '(i, st) := acc in
  let i :=
    firstFree (S (size (usedIds st)))
      (fun i => mapHas nameToItems2 (name +:+ JS.numToString i)
                && has (usedIds st) (name +:+ JS.numToString i))
      i in
  let newName := name +:+ JS.numToString i in
  (i + 1,
   {| usedIds := {[newName]} ∪ usedIds st;
      assigned := assigned st ++ [(item, newName)];
      unnamedItems := unnamedItems st |}).

(** the body of the third loop, for one bucket *)
Definition resolveBucket (nameToItems2 : MapOfItems) (st : NamingState)
    (entry : string * list T) : NamingState :=
  let '(name, items) := entry in
  if String.eqb name "" then
    {| usedIds := usedIds st;
       assigned := assigned st;
       unnamedItems := unnamedItems st ++ items |}
  else
    match items with
    | [item] =>
        if negb (has (usedIds st) name) then
          {| usedIds := {[name]} ∪ usedIds st;
             assigned := assigned st ++ [(item, name)];
             unnamedItems := unnamedItems st |}
        else
          snd (fold_left (assignNumbered nameToItems2 name)
                         (JS.sort comparator items) (0, st))
    | _ =>
        snd (fold_left (assignNumbered nameToItems2 name)
                       (JS.sort comparator items) (0, st))
    end.

(** [assignNames]: the calls of [assignName] in order, the set [usedIds]
    as the pass leaves it, and the returned list of unnamed items *)
Definition assignNames (items : list T) (usedIds0 : gset string)
  : list (T * string) * gset string * list T :=
  let nameToItems2 := regroup (groupByShortName items) in
  let st :=
    fold_left (resolveBucket nameToItems2) nameToItems2
      {| usedIds := usedIds0; assigned := []; unnamedItems := [] |} in
  (assigned st, usedIds st, JS.sort comparator (unnamedItems st)).
End AssignNames.

(** ** The deterministic id assigner: [assignDeterministicIds] *)

(** [Math.ceil(Math.log10(n * 1.25 + 1))]: the least [k >= 0] with
    [n * 1.25 + 1 <= 10^k], that is [5 n + 4 <= 4 * 10^k]. *)
Fixpoint ceilLog10_from (fuel : nat) (k : Z) (n : Z) : Z :=
  match fuel with
  | O => k
  | S fuel' => if 5 * n + 4 <=? 4 * 10 ^ k then k else ceilLog10_from fuel' (k + 1) n
  end.

Definition optimalLength (itemCount : nat) : Z :=
  let n := Z.of_nat itemCount in
  ceilLog10_from (S (Z.to_nat (Z.log2 (5 * n + 4)))) 0 n.

Section AssignDeterministicIds.
Variable md4 : string -> string.
Context {T : Type}.
Variable getName : T -> string.
Variable comparator : T -> T -> Z.

(** [maxLength] is [None] when the argument is not a number *)
Definition usedMaxLength (maxLength : option Z) (itemCount : nat) : Z :=
  Z.max (Z.min (default 0 maxLength) 15) (optimalLength itemCount).

(** the [do ... while] loop, from the value [i] of the counter; [None]
    when no free id is found within [fuel] probes *)
Fixpoint probe (fuel : nat) (ident : string) (len : Z)
    (usedIds : gset string) (i : Z) : option JSNumber.number :=
  match fuel with
  | O => None
  | S fuel' =>
      let id := getHashNumber md4 (ident +:+ JS.numToString i) len in
      if has usedIds (JSNumber.toString id)
      then probe fuel' ident len usedIds (i + 1)
      else Some id
  end.

(** the [for] loop over the sorted items: the calls of [assignId] in
    order and the final [usedIds] *)
Fixpoint assignEach (fuel : nat) (len : Z) (items : list T)
    (usedIds : gset string)
  : option (list (T * JSNumber.number) * gset string) :=
  match items with
  | [] => Some ([], usedIds)
  | item :: items' =>
      id ← probe fuel (getName item) len usedIds 0;
      '(calls, usedIds') ←
        assignEach fuel len items' ({[JSNumber.toString id]} ∪ usedIds);
      Some ((item, id) :: calls, usedIds')
  end.

Definition assignDeterministicIds (fuel : nat) (items : list T)
    (maxLength : option Z) (usedIds : gset string)
  : option (list (T * JSNumber.number) * gset string) :=
  let items := JS.sort comparator items in
  assignEach fuel (usedMaxLength maxLength (length items)) items usedIds.
End AssignDeterministicIds.

(** ** The ascending id assigners *)

(** The compilation, as far as the ascending assigners read or write it.
    Module ids live in the chunk graph, keyed by the identifier of the
    module; chunk ids are fields of the chunks. *)
Record Compilation : Type := {
  usedModuleIds : option (list Id);
  modules : list Module;
  moduleIds : gmap string Id;
  usedChunkIds : option (list Id);
  chunks : list Chunk
}.

(** [chunkGraph.getModuleId(module)] *)
Definition getModuleId (moduleIds : gmap string Id) (module : Module)
  : option Id := moduleIds !! identifier module.

(** [chunkGraph.setModuleId(module, id)] *)
Definition setModuleId (moduleIds : gmap string Id) (module : Module) (id : Id)
  : gmap string Id := <[identifier module := id]> moduleIds.

Definition stringsOf (ids : list Id) : gset string :=
  list_to_set (idToString <$> ids).

Definition getUsedModuleIds (compilation : Compilation) : gset string :=
  stringsOf (default [] (usedModuleIds compilation))
  ∪ stringsOf (omap (getModuleId (moduleIds compilation)) (modules compilation)).

Definition getUsedChunkIds (compilation : Compilation) : gset string :=
  stringsOf (default [] (usedChunkIds compilation))
  ∪ stringsOf (omap id (chunks compilation)).

(** [while (usedIds.has(nextId + "")) nextId++] *)
Definition skipUsedIds (usedIds : gset string) (nextId : Z) : Z :=
  firstFree (S (size usedIds)) (fun n => has usedIds (JS.numToString n)) nextId.

(** The loop [for (const module of modules) assignId(module)], where [skip]
    is what [assignId] does to [nextId] before it assigns. *)
Fixpoint assignModulesFrom (skip : Z -> Z) (modules : list Module) (nextId : Z)
    (moduleIds : gmap string Id) : gmap string Id :=
  match modules with
  | [] => moduleIds
  | module :: modules' =>
      match getModuleId moduleIds module with
      | None =>
          let nextId := skip nextId in
          assignModulesFrom skip modules' (nextId + 1)
            (setModuleId moduleIds module (IdNumber nextId))
      | Some _ => assignModulesFrom skip modules' nextId moduleIds
      end
  end.

(** [assignAscendingModuleIds]: the module ids of the chunk graph after the
    call *)
Definition assignAscendingModuleIds (modules : list Module)
    (compilation : Compilation) : gmap string Id :=
  let usedIds := getUsedModuleIds compilation in
  if 0 <? Z.of_nat (size usedIds) then
    assignModulesFrom (skipUsedIds usedIds) modules 0 (moduleIds compilation)
  else
    assignModulesFrom (fun nextId => nextId) modules 0 (moduleIds compilation).

(** the loop over the chunks: each chunk as the loop leaves it *)
Fixpoint assignChunksFrom (skip : Z -> Z) (chunks : list Chunk) (nextId : Z)
  : list Chunk :=
  match chunks with
  | [] => []
  | chunk :: chunks' =>
      match id chunk with
      | None =>
          let nextId := skip nextId in
          {| name := name chunk;
             id := Some (IdNumber nextId);
             ids := Some [IdNumber nextId];
             idNameHints := idNameHints chunk |}
          :: assignChunksFrom skip chunks' (nextId + 1)
      | Some _ => chunk :: assignChunksFrom skip chunks' nextId
      end
  end.

(** [assignAscendingChunkIds]: the chunks of the argument, in order, as the
    call leaves them *)
Definition assignAscendingChunkIds (chunks : list Chunk)
    (compilation : Compilation) : list Chunk :=
  let usedIds := getUsedChunkIds compilation in
  if 0 <? Z.of_nat (size usedIds) then
    assignChunksFrom (skipUsedIds usedIds) chunks 0
  else
    assignChunksFrom (fun nextId => nextId) chunks 0.

(** what the two variants of [assignId] do to [nextId] before assigning:
    the result is not below [nextId] and is acceptable *)
Definition skips (P : Z -> Prop) (skip : Z -> Z) : Prop :=
  forall n, n <= skip n /\ P (skip n).

(** ** What the specification says about the grouping of [assignNames] *)

Section NamingSpec.
Context {T : Type}.
Variable getShortName : T -> string.
Variable getLongName : T -> string -> string.

(** the pairs of a key and an item that a map of items holds *)
Definition entries (map : list (string * list T)) : list (string * T) :=
  map ≫= (fun entry => pair (fst entry) <$> snd entry).

(** how many of the items have the short name [name] *)
Definition occurrences (items : list T) (name : string) : nat :=
  length (filter (fun x => getShortName x = name) items).

(** The name under which an item is resolved: "for every bucket with more
    than one item, or whose short name is empty, [...] regroup them by
    long name instead; buckets that were singletons with a non-empty short
    name keep that short name". *)
Definition candidateName (items : list T) (x : T) : string :=
  let name := getShortName x in
  if (1 <? Z.of_nat (occurrences items name)) || String.eqb name ""
  then getLongName x name
  else name.

(** what the second loop adds to [nameToItems2] for one bucket *)
Definition regrouped (entry : string * list T) : list (string * T) :=
  let '(name, items) := entry in
  if (1 <? Z.of_nat (length items)) || String.eqb name "" then
    (fun item => (getLongName item name, item)) <$> items
  else
    match items with
    | item :: _ => [(name, item)]
    | [] => []
    end.
End NamingSpec.

(** ** SystemLibraryPlugin.parseOptions *)

Module SystemLibraryPlugin.

(** the values that the property [name] of the library option can hold *)
#[warnings="-register-all"]
Inductive value : Type :=
| VUndefined
| VNull
| VBoolean (b : bool)
| VNumber (n : Z)
| VString (s : string)
| VArray (items : list value)
| VObject (fields : list (string * value)).

Definition typeof (v : value) : string :=
  match v with
  | VUndefined => "undefined"
  | VNull => "object"
  | VBoolean _ => "boolean"
  | VNumber _ => "number"
  | VString _ => "string"
  | VArray _ => "object"
  | VObject _ => "object"
  end.

(** the truth value of [v] in a condition *)
Definition toBoolean (v : value) : bool :=
  match v with
  | VUndefined => false
  | VNull => false
  | VBoolean b => b
  | VNumber n => negb (n =? 0)
  | VString s => negb (String.eqb s "")
  | VArray _ => true
  | VObject _ => true
  end.

(** the library option, with the property that [parseOptions] reads;
    an absent [name] reads as [VUndefined] *)
Record LibraryOptions : Type := {
  libraryName : value;
  libraryType : string
}.

Record SystemLibraryPluginParsed : Type := { parsedName : value }.

(** Modelled from the spec: the declaration of [LibraryOptions]
    (declarations/WebpackOptions) is not among the sources.  A name that
    is set is "a plain string" or one of the structured forms: an array of
    strings or an object. *)
Definition isDeclaredName (v : value) : bool :=
  match v with
  | VUndefined => true
  | VString _ => true
  | VArray items =>
      forallb (fun i => match i with VString _ => true | _ => false end) items
  | VObject _ => true
  | _ => false
  end.

(** the name is set and is not a string *)
Definition presentNonString (v : value) : Prop :=
  v <> VUndefined /\ typeof v <> "string".

Definition nameError : string :=
  "System.js library name must be a simple string or unset".

(** Computations of the plugin over the state of the compilation: they
    return or throw, and leave a state. *)
Inductive outcome (A : Type) : Type :=
| Return (result : A)
| Throw (message : string).
Arguments Return {A} result.
Arguments Throw {A} message.

Section Computations.
Variable Compilation : Type.

Definition M (A : Type) : Type := Compilation -> outcome A * Compilation.
Definition ret {A : Type} (a : A) : M A := fun st => (Return a, st).
Definition throw {A : Type} (message : string) : M A :=
  fun st => (Throw message, st).

Definition parseOptions (library : LibraryOptions)
  : M SystemLibraryPluginParsed :=
  let name := libraryName library in
  if toBoolean name && negb (String.eqb (typeof name) "string") then
    throw "System.js library name must be a simple string or unset"
  else
    ret {| parsedName := name |}.
End Computations.

End SystemLibraryPlugin.

(** ** Concrete inputs for the closed examples *)

Module Samples.

(** A stand-in for the digest function in closed examples: 32 lower-case
    hex digits computed from the characters of the string.  No property
    of MD4 is claimed for it. *)
Definition hexDigit (n : Z) : ascii :=
  ascii_of_N (Z.to_N (if n <? 10 then 48 + n else 87 + n)).

Definition checksum (s : string) : Z :=
  fold_left
    (fun h c => ((h + JS.charCode c + 1) * 211106232532993) mod 2 ^ 128)
    (list_ascii_of_string s) 98765432123456789.

Definition toyDigest (s : string) : string :=
  let h := (checksum s * 340282366920938463463374607431768211297) mod 2 ^ 128 in
  string_of_list_ascii
    (map (fun k => hexDigit ((h / 16 ^ Z.of_nat k) mod 16)) (seq 0 32)).

(** the MD4 digest of the string "a" (RFC 1320, appendix A.5) *)
Definition digestOfA : string := "bde52cb31de33e46245e05fbdbd6fb24".

(** items to be named: a key for the comparator and the two names *)
Record Item : Type := {
  key : Z;
  shortName : string;
  longName : string
}.

Definition getShort (item : Item) : string := shortName item.
Definition getLong (item : Item) (short : string) : string := longName item.
Definition byKey (a b : Item) : Z := Z.sgn (key a - key b).

Definition item (k : Z) (short long : string) : Item :=
  {| key := k; shortName := short; longName := long |}.

(** eleven items that share the long name "a", with keys 1 to 11 *)
Definition elevenItems : list Item :=
  map (fun k => item k "s" "a") [1; 2; 3; 4; 5; 6; 7; 8; 9; 10; 11].

(** a module with the given identifier and no [libIdent] *)
Definition plainModule (ident : string) : Module :=
  {| identifier := ident; libIdent := fun _ => None |}.

Definition byIdentifier (a b : Module) : Z :=
  JS.compareStrings (identifier a) (identifier b).

(** the comparison of numbers as a comparator *)
Definition compareZ (a b : Z) : Z :=
  match a ?= b with
  | Lt => -1
  | Eq => 0
  | Gt => 1
  end.

(** the name of the module numbered [k] *)
Definition moduleName (k : Z) : string := "./src/m" +:+ JS.numToString k.

Definition unassignedChunk : Chunk :=
  {| name := None; id := None; ids := None; idNameHints := [] |}.

Definition libraryNamed (v : SystemLibraryPlugin.value)
  : SystemLibraryPlugin.LibraryOptions :=
  {| SystemLibraryPlugin.libraryName := v;
     SystemLibraryPlugin.libraryType := "system" |}.
End Samples.

(** ** Proof steps that recur *)

(** the character of the hypothesis [H], a decimal digit, is none of the
    characters it is compared with in the goal *)
Ltac digit_is_not H :=
  repeat match goal with
  | |- context [Ascii.eqb ?c ?k] =>
      destruct (Ascii.eqb_spec c k) as [->|_];
      [ vm_compute in H; discriminate H | ]
  end.

(** membership of a string in an explicit finite set of strings *)
Ltac string_set :=
  rewrite ?elem_of_union, ?elem_of_singleton;
  first [ intuition discriminate | intuition reflexivity ].

(** ** Further notions used in the statements *)

(** [s] starts with the character [c] *)
Definition startsWith (c : ascii) (s : string) : bool :=
  match s with
  | EmptyString => false
  | String c' _ => Ascii.eqb c' c
  end.

(** [map.get(key)] for a map of items: the array of the first entry with
    that key *)
Fixpoint mapGet {T : Type} (map : list (string * list T)) (key : string)
  : option (list T) :=
  match map with
  | [] => None
  | (k, array) :: map' => if String.eqb k key then Some array else mapGet map' key
  end.

(** the names that [assignNames] derives from the candidate name [k]: [k]
    itself, or [k] followed by the decimal numeral of a number from 0 on *)
Definition nameOf (k : string) (n : string) : Prop :=
  n = k \/ exists i, 0 <= i /\ n = k +:+ JS.numToString i.


(** what a variant of [assignId] does to [nextId] before it assigns: it
    passes over numbers in [Q] only *)
Definition skipsOver (Q : Z -> Prop) (skip : Z -> Z) : Prop :=
  forall n, n <= skip n /\ forall j, n <= j < skip n -> Q j.

(** [chunk.id === null] *)
Definition hasNoId (chunk : Chunk) : bool :=
  match id chunk with
  | None => true
  | Some _ => false
  end.

(** the numbers that a pass gave to the chunks that had no id, in the order
    of the chunks: [before] are the chunks as the pass found them and [after]
    the same chunks as it left them *)
Definition numbersGiven (before after : list Chunk) : list Z :=
  omap (fun p => match id (fst p), id (snd p) with
                 | None, Some (IdNumber n) => Some n
                 | _, _ => None
                 end)
       (zip before after).
(** * Properties *)

(** ** Strings *)

Section StringFacts.
Lemma append_cons a (s t : string) : String a s +:+ t = String a (s +:+ t).
Proof. reflexivity. Qed.

Lemma append_empty_r (s : string) : s +:+ "" = s.
Proof.
  induction s as [|a s IH]; [reflexivity|].
  rewrite append_cons, IH. reflexivity.
Qed.

Lemma length_append (s t : string) :
  String.length (s +:+ t) = (String.length s + String.length t)%nat.
Proof.
  induction s as [|a s IH]; [reflexivity|].
  rewrite append_cons. cbn [String.length]. rewrite IH. reflexivity.
Qed.

Lemma length_substring_0 n (s : string) :
  String.length (substring 0 n s) = Nat.min n (String.length s).
Proof.
  revert s. induction n as [|n IH]; intros [|a s]; cbn [substring String.length];
    rewrite ?IH; reflexivity.
Qed.
End StringFacts.
(** ** Sorting with a comparator *)

Section SortFacts.
Context {T : Type} (comparator : T -> T -> Z).

Lemma insert_perm x l : Permutation (x :: l) (JS.insert comparator x l).
Proof.
  induction l as [|y l IH]; cbn [JS.insert]; [reflexivity|].
  destruct (0 <? comparator x y); [|reflexivity].
  rewrite perm_swap. apply perm_skip. exact IH.
Qed.

Lemma sort_perm l : Permutation l (JS.sort comparator l).
Proof.
  induction l as [|x l IH]; [reflexivity|].
  change (JS.sort comparator (x :: l))
    with (JS.insert comparator x (JS.sort comparator l)).
  rewrite <- insert_perm. apply perm_skip. exact IH.
Qed.

Lemma length_sort l : length (JS.sort comparator l) = length l.
Proof. symmetry. apply Permutation_length, sort_perm. Qed.

Lemma elem_of_sort x l : x ∈ JS.sort comparator l <-> x ∈ l.
Proof. rewrite <- (sort_perm l). reflexivity. Qed.

(** the comparator never puts each of two items after the other *)
Hypothesis comparator_total :
  forall a b, 0 < comparator a b -> comparator b a <= 0.

Lemma insert_sorted x l :
  Sorted (cmp_le comparator) l -> Sorted (cmp_le comparator) (JS.insert comparator x l).
Proof.
  induction l as [|y l IH]; intros Hs; cbn [JS.insert].
  - repeat constructor.
  - destruct (0 <? comparator x y) eqn:E.
    + apply Z.ltb_lt in E. inversion Hs as [|? ? Hs' Hhd]; subst.
      constructor; [apply IH, Hs'|].
      destruct l as [|z l]; cbn [JS.insert].
      * constructor. apply comparator_total, E.
      * destruct (0 <? comparator x z).
        -- inversion Hhd; subst. constructor. assumption.
        -- constructor. apply comparator_total, E.
    + apply Z.ltb_ge in E. constructor; [exact Hs|]. constructor. exact E.
Qed.

Lemma sort_sorted l : Sorted (cmp_le comparator) (JS.sort comparator l).
Proof.
  induction l as [|x l IH]; [constructor|].
  change (JS.sort comparator (x :: l))
    with (JS.insert comparator x (JS.sort comparator l)).
  apply insert_sorted, IH.
Qed.
End SortFacts.

Lemma compareStrings_antisym a : forall b,
  JS.compareStrings b a = - JS.compareStrings a b.
Proof.
  induction a as [|x a IH]; intros [|y b]; cbn [JS.compareStrings]; try reflexivity.
  destruct (JS.charCode x <? JS.charCode y) eqn:E1;
    destruct (JS.charCode y <? JS.charCode x) eqn:E2; try reflexivity.
  - apply Z.ltb_lt in E1, E2. lia.
  - apply IH.
Qed.

Lemma compareStrings_total a b :
  0 < JS.compareStrings a b -> JS.compareStrings b a <= 0.
Proof. rewrite (compareStrings_antisym a b). lia. Qed.

(** ** Sorting what a total order orders *)

Section SortUnique.
Context {T : Type} (comparator : T -> T -> Z).

Lemma totalOrderOn_perm l l' :
  Permutation l l' -> totalOrderOn comparator l -> totalOrderOn comparator l'.
Proof.
  intros Hp [H1 H2 H3].
  split; intros *; rewrite <- !Hp; [apply H1 | apply H2 | apply H3].
Qed.

Lemma insert_ordered (domain : list T) x l :
  totalOrderOn comparator domain -> x ∈ domain -> (forall y, y ∈ l -> y ∈ domain) ->
  ordered comparator l -> ordered comparator (JS.insert comparator x l).
Proof.
  intros Hto Hx. induction l as [|y l IH]; intros Hin Ho; cbn [JS.insert].
  - split; [|exact I]. intros y Hy. inversion Hy.
  - assert (Hy : y ∈ domain) by (apply Hin; left).
    assert (Hl : forall z, z ∈ l -> z ∈ domain) by (intros z Hz; apply Hin; right; exact Hz).
    destruct Ho as [Hhd Ho].
    destruct (0 <? comparator x y) eqn:E.
    + apply Z.ltb_lt in E. split; [|apply IH; assumption].
      intros z Hz. rewrite <- (insert_perm comparator x l) in Hz.
      apply elem_of_cons in Hz as [->|Hz]; [|apply Hhd, Hz].
      apply (total_on Hto); assumption.
    + apply Z.ltb_ge in E. split; [|split; assumption].
      intros z Hz. apply elem_of_cons in Hz as [->|Hz]; [exact E|].
      apply (trans_on Hto x y z); auto.
Qed.

Lemma sort_ordered l : totalOrderOn comparator l -> ordered comparator (JS.sort comparator l).
Proof.
  intros Hto.
  assert (H : forall k, (forall y, y ∈ k -> y ∈ l) -> ordered comparator (JS.sort comparator k)).
  { induction k as [|x k IH]; intros Hk; [exact I|].
    change (JS.sort comparator (x :: k))
      with (JS.insert comparator x (JS.sort comparator k)).
    apply (insert_ordered l); [exact Hto | apply Hk; left | |].
    - intros y Hy. apply Hk. right. apply (elem_of_sort comparator). exact Hy.
    - apply IH. intros y Hy. apply Hk. right. exact Hy. }
  apply H. auto.
Qed.

Lemma ordered_perm_eq l : forall l',
  totalOrderOn comparator l -> Permutation l l' -> ordered comparator l -> ordered comparator l' -> l = l'.
Proof.
  induction l as [|x l IH]; intros l' Hto Hp Ho Ho'.
  - apply Permutation_nil in Hp. congruence.
  - destruct l' as [|y l']; [symmetry in Hp; apply Permutation_nil in Hp; discriminate|].
    destruct Ho as [Hx Ho], Ho' as [Hy Ho'].
    assert (Exy : x = y).
    { assert (Hxin : x ∈ y :: l') by (rewrite <- Hp; left).
      assert (Hyin : y ∈ x :: l) by (rewrite Hp; left).
      apply elem_of_cons in Hxin as [E|Hxin]; [exact E|].
      apply elem_of_cons in Hyin as [E|Hyin]; [congruence|].
      apply (antisym_on Hto); [left | right; exact Hyin | apply Hx, Hyin | apply Hy, Hxin]. }
    subst y. f_equal. apply IH; [| apply (Permutation_cons_inv Hp) | assumption ..].
    destruct Hto as [H1 H2 H3].
    split; intros *; intros; [apply H1 | apply (H2 a b c) | apply H3];
      auto using list_elem_of_further.
Qed.

(** the sorted list does not depend on the order of the input *)
Lemma sort_perm_eq l l' :
  totalOrderOn comparator l -> Permutation l l' ->
  JS.sort comparator l = JS.sort comparator l'.
Proof.
  intros Hto Hp. apply ordered_perm_eq.
  - apply (totalOrderOn_perm l); [apply sort_perm | exact Hto].
  - rewrite <- (sort_perm comparator l), <- (sort_perm comparator l'). exact Hp.
  - apply sort_ordered, Hto.
  - apply sort_ordered. apply (totalOrderOn_perm l); assumption.
Qed.
End SortUnique.


(** ** Arithmetic on doubles that hold small integers *)

Section NumberFacts.
Import JSNumber.

Lemma pow_2_53 : 2 ^ 53 = 9007199254740992.
Proof. reflexivity. Qed.

Lemma round_safe n : Z.abs n < 2 ^ 53 -> round n 1 = Int n.
Proof.
  intros H. unfold round, isSafeInteger.
  rewrite (proj2 (Z.ltb_lt _ _) H). reflexivity.
Qed.

Lemma mul_Int a b : Z.abs (a * b) < 2 ^ 53 -> mul (Int a) (Int b) = Int (a * b).
Proof. intros H. unfold mul. cbn [value]. apply round_safe, H. Qed.

Lemma add_Int a b : Z.abs (a + b) < 2 ^ 53 -> add (Int a) (Int b) = Int (a + b).
Proof.
  intros H. unfold add. cbn [value]. rewrite !Z.mul_1_r.
  apply round_safe, H.
Qed.

Lemma roundInteger_safe n : Z.abs n < 2 ^ 53 -> roundInteger n = n.
Proof. intros H. unfold roundInteger. rewrite round_safe by exact H. reflexivity. Qed.

Lemma pow10_small e : 0 <= e <= 15 -> pow10 e = Int (10 ^ e).
Proof.
  intros He. unfold pow10.
  destruct (e <? 0) eqn:E0; [apply Z.ltb_lt in E0; lia|].
  destruct (400 <? e) eqn:E1; [apply Z.ltb_lt in E1; lia|].
  apply round_safe.
  assert (Hp : 10 ^ e <= 10 ^ 15) by (apply Z.pow_le_mono_r; lia).
  assert (H0 : 0 < 10 ^ e) by (apply Z.pow_pos_nonneg; lia).
  rewrite pow_2_53. change (10 ^ 15) with 1000000000000000 in Hp. lia.
Qed.

Lemma divRoundEven_nonneg a b : 0 <= a -> 0 < b -> 0 <= divRoundEven a b.
Proof.
  intros Ha Hb. unfold divRoundEven.
  pose proof (Z.div_pos a b Ha Hb).
  destruct (_ || _); lia.
Qed.

Lemma roundPositive_nonneg n d m e :
  0 < n -> 0 < d -> roundPositive n d = Some (m, e) -> 0 <= m.
Proof.
  intros Hn Hd. unfold roundPositive.
  set (e0 := Z.max (log2Ratio n d - 52) (-1074)).
  destruct (_ || _); [discriminate|]. intros H. injection H as <- _.
  destruct (0 <=? e0) eqn:E.
  - apply divRoundEven_nonneg; [lia|].
    apply Z.mul_pos_pos; [exact Hd|]. apply Z.pow_pos_nonneg; [lia|].
    apply Z.leb_le, E.
  - apply divRoundEven_nonneg; [|exact Hd].
    apply Z.mul_nonneg_nonneg; [lia|]. apply Z.pow_nonneg. lia.
Qed.

Lemma oddPart_nonpos fuel : forall m e, m <= 0 -> fst (oddPart fuel m e) <= 0.
Proof.
  induction fuel as [|fuel IH]; intros m e Hm; cbn [oddPart]; [exact Hm|].
  destruct (Z.even m); [|exact Hm]. apply IH.
  apply Z.div_le_upper_bound; lia.
Qed.

(** a number that holds an integer below 1 still does after it was
    decremented, whatever the rounding *)
Lemma roundInteger_nonpos n : n <= 0 -> roundInteger n <= 0.
Proof.
  intros Hn. unfold roundInteger, round.
  destruct ((1 =? 1) && isSafeInteger n); [exact Hn|].
  destruct (n =? 0) eqn:E0; [lia|]. apply Z.eqb_neq in E0.
  destruct (roundPositive (Z.abs n) 1) as [[m e]|] eqn:Er; [|exact Hn].
  apply roundPositive_nonneg in Er; [|lia ..].
  destruct (m =? 0); [lia|]. unfold ofBinary.
  pose proof (oddPart_nonpos 64 (Z.sgn n * m) e) as Hodd.
  destruct (oddPart 64 (Z.sgn n * m) e) as [m' e']. cbn [fst] in Hodd.
  assert (Hm' : m' <= 0) by (apply Hodd; nia).
  assert (Hp : 0 <= 2 ^ e') by (apply Z.pow_nonneg; lia).
  destruct (_ && _); nia.
Qed.
End NumberFacts.

(** ** Hash primitives *)

Section HashFacts.
Import CharClass HashSpec JSNumber.
Variable md4 : string -> string.

Lemma lowerHex_digit_iff c :
  isLowerHex c = true -> (JS.charCode c <? 58) = isDecimalDigit c.
Proof.
  unfold isLowerHex, isDecimalDigit.
  intros H. destruct (JS.charCode c <? 58) eqn:E.
  - apply orb_true_iff in H as [H|H].
    + apply andb_true_iff in H as [H _]. rewrite H. reflexivity.
    + apply andb_true_iff in H as [H _].
      apply Z.leb_le in H. apply Z.ltb_lt in E. lia.
  - rewrite andb_false_r. reflexivity.
Qed.

Lemma isDecimalDigit_range c :
  isDecimalDigit c = true -> 0 <= JS.charCode c - 48 <= 9.
Proof.
  unfold isDecimalDigit. intros H.
  apply andb_true_iff in H as [H1 H2].
  apply Z.leb_le in H1. apply Z.ltb_lt in H2. lia.
Qed.

Lemma decimalDigits_range digest :
  Forall (fun d => 0 <= d <= 9) (decimalDigits digest).
Proof.
  induction digest as [|c s IH]; simpl; [constructor|].
  destruct (isDecimalDigit c) eqn:E; [|exact IH].
  constructor; [apply isDecimalDigit_range, E | exact IH].
Qed.

Lemma accumulate_bound ds : forall acc k,
  Forall (fun d => 0 <= d <= 9) ds -> 0 <= k ->
  0 <= acc < 10 ^ k ->
  0 <= accumulate acc ds < 10 ^ (k + Z.of_nat (length ds)).
Proof.
  induction ds as [|d ds IH]; intros acc k Hds Hk Hacc; simpl.
  - rewrite Z.add_0_r. exact Hacc.
  - inversion Hds as [|? ? Hd Hds']; subst.
    change (accumulate acc (d :: ds)) with (accumulate (acc * 10 + d) ds).
    cbn [length]. rewrite Nat2Z.inj_succ.
    replace (k + Z.succ (Z.of_nat (length ds)))
      with ((k + 1) + Z.of_nat (length ds)) by lia.
    apply IH; [assumption | lia |].
    rewrite Z.pow_add_r by lia. simpl (10 ^ 1). lia.
Qed.

(** The loop in exact arithmetic computes the specified number from any
    intermediate state. *)
Lemma exactLoop_spec digest : forall result len,
  isHexDigest digest = true -> 1 <= len ->
  exactLoop digest result len =
    let ds := decimalDigits digest in
    let k := len - Z.of_nat (length ds) in
    if k <=? 0 then accumulate result (take (Z.to_nat len) ds)
    else (accumulate result ds * 10 + 1) * 10 ^ (k - 1).
Proof.
  induction digest as [|c s IH]; intros result len Hhex Hlen;
    cbn [exactLoop decimalDigits]; cbv zeta.
  - cbn [length]. rewrite Z.sub_0_r.
    destruct (len <=? 0) eqn:E; [apply Z.leb_le in E; lia|]. reflexivity.
  - cbn [isHexDigest allChars] in Hhex. apply andb_true_iff in Hhex as [Hc Hs].
    rewrite (lowerHex_digit_iff c Hc).
    destruct (isDecimalDigit c) eqn:Ed.
    + cbn [length]. rewrite Nat2Z.inj_succ.
      destruct (len - 1 <? 1) eqn:E1.
      * apply Z.ltb_lt in E1. assert (len = 1) by lia. subst len.
        destruct (1 - Z.succ (Z.of_nat (length (decimalDigits s))) <=? 0) eqn:E2;
          [|apply Z.leb_gt in E2; lia].
        reflexivity.
      * apply Z.ltb_ge in E1. rewrite IH by (assumption || lia).
        cbv zeta.
        replace (len - Z.succ (Z.of_nat (length (decimalDigits s))))
          with (len - 1 - Z.of_nat (length (decimalDigits s))) by lia.
        destruct (len - 1 - Z.of_nat (length (decimalDigits s)) <=? 0); [|reflexivity].
        replace (Z.to_nat len) with (S (Z.to_nat (len - 1))) by lia.
        reflexivity.
    + apply IH; assumption.
Qed.

(** the specified number is not negative and has at most [len] digits *)
Lemma hashToBoundedInt_range digest len :
  1 <= len -> 0 <= hashToBoundedInt digest len < 10 ^ len.
Proof.
  intros Hlen. unfold hashToBoundedInt. cbv zeta.
  pose proof (decimalDigits_range digest) as Hds.
  set (ds := decimalDigits digest) in *.
  destruct (len - Z.of_nat (length ds) <=? 0) eqn:E.
  - apply Z.leb_le in E.
    assert (Hb := accumulate_bound (take (Z.to_nat len) ds) 0 0).
    rewrite length_take in Hb.
    replace (0 + Z.of_nat (Z.to_nat len `min` length ds)) with len in Hb by lia.
    apply Hb; [apply Forall_take, Hds | lia | simpl; lia].
  - apply Z.leb_gt in E.
    assert (Hb := accumulate_bound ds 0 0 Hds ltac:(lia) ltac:(simpl; lia)).
    rewrite Z.add_0_l in Hb.
    set (n := Z.of_nat (length ds)) in *.
    set (a := accumulate 0 ds) in *.
    assert (Hn : 0 <= n) by (subst n; lia).
    assert (Hpow : 10 ^ len = (10 ^ n * 10) * 10 ^ (len - n - 1)).
    { rewrite <- (Z.pow_1_r 10) at 3. rewrite <- !Z.pow_add_r by lia.
      f_equal. lia. }
    rewrite Hpow.
    assert (0 < 10 ^ (len - n - 1)) by (apply Z.pow_pos_nonneg; lia).
    split; [nia|].
    apply Z.mul_lt_mono_pos_r; lia.
Qed.

(** For at most 15 digits the doubles of the loop hold integers below
    2^53 and no operation rounds: the loop computes what it computes in
    exact arithmetic. *)
Lemma getHashNumber_loop_exact digest : forall r len,
  isHexDigest digest = true -> 1 <= len -> 0 <= r ->
  (r + 1) * 10 ^ len <= 10 ^ 15 ->
  getHashNumber_loop digest (Int r) len = Int (exactLoop digest r len).
Proof.
  induction digest as [|c s IH]; intros r len Hhex Hlen Hr Hb;
    cbn [getHashNumber_loop exactLoop]; cbv zeta.
  - assert (Hlen' : len <= 15).
    { destruct (Z_le_gt_dec len 15) as [H|H]; [exact H|].
      assert (10 ^ 16 <= 10 ^ len) by (apply Z.pow_le_mono_r; lia).
      change (10 ^ 16) with 10000000000000000 in *.
      change (10 ^ 15) with 1000000000000000 in *. nia. }
    assert (Hp : 10 ^ len = 10 * 10 ^ (len - 1)).
    { replace len with (1 + (len - 1)) at 1 by lia.
      rewrite Z.pow_add_r by lia. reflexivity. }
    assert (Hp0 : 0 < 10 ^ (len - 1)) by (apply Z.pow_pos_nonneg; lia).
    change (10 ^ 15) with 1000000000000000 in Hb.
    rewrite roundInteger_safe by (rewrite pow_2_53; lia).
    rewrite pow10_small by lia.
    rewrite mul_Int by (rewrite pow_2_53; nia).
    rewrite add_Int by (rewrite pow_2_53; nia).
    rewrite mul_Int by (rewrite pow_2_53; nia).
    reflexivity.
  - cbn [isHexDigest allChars] in Hhex. apply andb_true_iff in Hhex as [Hc Hs].
    rewrite (lowerHex_digit_iff c Hc).
    destruct (isDecimalDigit c) eqn:Ed; [|apply IH; assumption].
    pose proof (isDecimalDigit_range c Ed) as Hd.
    assert (Hlen' : len <= 15).
    { destruct (Z_le_gt_dec len 15) as [H|H]; [exact H|].
      assert (10 ^ 16 <= 10 ^ len) by (apply Z.pow_le_mono_r; lia).
      change (10 ^ 16) with 10000000000000000 in *.
      change (10 ^ 15) with 1000000000000000 in *. nia. }
    assert (Hp : 10 ^ len = 10 * 10 ^ (len - 1)).
    { replace len with (1 + (len - 1)) at 1 by lia.
      rewrite Z.pow_add_r by lia. reflexivity. }
    assert (Hp0 : 0 < 10 ^ (len - 1)) by (apply Z.pow_pos_nonneg; lia).
    rewrite roundInteger_safe by (rewrite pow_2_53; lia).
    rewrite mul_Int
      by (rewrite pow_2_53; change (10 ^ 15) with 1000000000000000 in Hb; nia).
    rewrite add_Int
      by (rewrite pow_2_53; change (10 ^ 15) with 1000000000000000 in Hb; nia).
    destruct (len - 1 <? 1) eqn:E1; [reflexivity|]. apply Z.ltb_ge in E1.
    apply IH; [exact Hs | lia | lia |]. rewrite Hp in Hb. nia.
Qed.

Lemma getHashNumber_exact (str : string) (len : Z) :
  isHexDigest (md4 str) = true -> 1 <= len <= 15 ->
  getHashNumber md4 str len = Int (hashToBoundedInt (md4 str) len).
Proof.
  intros Hhex Hlen. unfold getHashNumber.
  rewrite getHashNumber_loop_exact; [|exact Hhex | lia | lia |].
  - rewrite exactLoop_spec by (exact Hhex || lia). reflexivity.
  - rewrite Z.mul_1_l. apply Z.pow_le_mono_r; lia.
Qed.

(** C6, as the code has it.  For every input string and every maxDigits
    from 1 to 15, [getHashNumber] returns the number that the
    specification describes -- the decimal digits of the hex digest
    accumulated left to right in base 10, cut as soon as maxDigits digits
    were read, or, when k >= 1 digits are missing at the end of the
    digest, (accumulator * 10 + 1) * 10^(k-1) -- and that number is a
    non-negative integer strictly below 10^maxDigits. *)
Theorem getHashNumber_bounded (str : string) (maxDigits : Z) :
  isHexDigest (md4 str) = true ->
  1 <= maxDigits <= 15 ->
  getHashNumber md4 str maxDigits = Int (hashToBoundedInt (md4 str) maxDigits)
  /\ 0 <= hashToBoundedInt (md4 str) maxDigits < 10 ^ maxDigits.
Proof.
  intros Hhex Hlen. split; [apply getHashNumber_exact; assumption|].
  apply hashToBoundedInt_range. lia.
Qed.
End HashFacts.

Lemma getHashNumber_bounded_witness :
  getHashNumber Samples.toyDigest "./src/index.js" 15
  = JSNumber.Int (HashSpec.hashToBoundedInt (Samples.toyDigest "./src/index.js") 15)
  /\ 0 <= HashSpec.hashToBoundedInt (Samples.toyDigest "./src/index.js") 15 < 10 ^ 15.
Proof.
  apply (getHashNumber_bounded Samples.toyDigest "./src/index.js" 15);
    [reflexivity | lia].
Defined.

(** C6, as the specification states it, fails from 16 digits on, where the
    doubles round.  With the MD4 digest of "a" and 40 digits the result is
    not the padded number of the specification; with a digest that starts
    with sixteen nines and 16 digits the result is 10^16, which has 17
    digits. *)
Lemma getHashNumber_rounds :
  JSNumber.value (getHashNumber (fun _ => Samples.digestOfA) "a" 40)
    = Some (5231334624505623296856674011719204339712, 1)
  /\ HashSpec.hashToBoundedInt Samples.digestOfA 40
     = 5231334624505624100000000000000000000000
  /\ JSNumber.value
       (getHashNumber (fun _ => "9999999999999999ffffffffffffffff"%string) "" 16)
     = Some (10 ^ 16, 1).
Proof. split; [|split]; vm_compute; reflexivity. Qed.
(** ** Numbers and strings, [avoidNumber] *)

Section AvoidNumberFacts.
Import CharClass JSNumber.

Lemma string_of_uint_digits d :
  allChars isDecimalDigit (NilEmpty.string_of_uint d) = true.
Proof. induction d; cbn [NilEmpty.string_of_uint allChars]; rewrite ?IHd; reflexivity. Qed.

Lemma digit_not_space c : isDecimalDigit c = true -> isWhiteSpace c = false.
Proof.
  unfold isDecimalDigit, isWhiteSpace. intros H.
  apply andb_true_iff in H as [H1 H2]. apply Z.leb_le in H1.
  cbn [existsb]. repeat (rewrite (proj2 (Z.eqb_neq _ _)) by lia). reflexivity.
Qed.

Lemma trimEnd_cons c s :
  isWhiteSpace c = false -> trimEnd (String c s) = String c (trimEnd s).
Proof. intros H. cbn [trimEnd]. rewrite H. reflexivity. Qed.

Lemma trimEnd_digits t :
  allChars isDecimalDigit t = true -> trimEnd t = t.
Proof.
  induction t as [|c t IH]; [reflexivity|]. cbn [allChars trimEnd].
  intros H. apply andb_true_iff in H as [Hc Ht].
  rewrite (IH Ht), (digit_not_space c Hc). reflexivity.
Qed.

Lemma span_digits t :
  allChars isDecimalDigit t = true -> span isDecimalDigit t = (t, ""%string).
Proof.
  induction t as [|c t IH]; [reflexivity|]. cbn [allChars span].
  intros H. apply andb_true_iff in H as [Hc Ht].
  rewrite Hc, (IH Ht). reflexivity.
Qed.

Lemma ofDecimal_0 m : ofDecimal m 0 = ofInteger m.
Proof.
  unfold ofDecimal, ofInteger. destruct (m =? 0) eqn:E.
  - apply Z.eqb_eq in E. subst m. reflexivity.
  - cbn [Z.leb Z.compare Z.ltb]. rewrite Z.pow_0_r, Z.mul_1_r. reflexivity.
Qed.

Lemma parseUnsignedDecimal_digits c t :
  isDecimalDigit c = true -> allChars isDecimalDigit t = true ->
  parseUnsignedDecimal (String c t) = Some (ofInteger (decimalValue (String c t))).
Proof.
  intros Hc Ht. unfold parseUnsignedDecimal.
  assert (Hinf : String.eqb (String c t) "Infinity" = false).
  { cbn [String.eqb]. digit_is_not Hc. reflexivity. }
  rewrite Hinf, span_digits by (cbn [allChars]; rewrite Hc, Ht; reflexivity).
  rewrite append_empty_r.
  cbn [String.eqb andb parseExponent String.length].
  cbn [Z.of_nat Z.sub Z.opp Z.add]. rewrite ofDecimal_0. reflexivity.
Qed.

Lemma StringToNumber_digits c t :
  isDecimalDigit c = true -> allChars isDecimalDigit t = true ->
  StringToNumber (String c t) = ofInteger (decimalValue (String c t)).
Proof.
  intros Hc Ht. unfold StringToNumber.
  cbn [trimStart]. rewrite (digit_not_space c Hc).
  rewrite trimEnd_digits by (cbn [allChars]; rewrite Hc, Ht; reflexivity).
  assert (Hdec : parseDecimal (String c t) = ofInteger (decimalValue (String c t))).
  { unfold parseDecimal. digit_is_not Hc.
    rewrite parseUnsignedDecimal_digits by assumption. reflexivity. }
  destruct t as [|c1 ds]; [exact Hdec|].
  cbn [allChars] in Ht. apply andb_true_iff in Ht as [Hc1 _].
  assert (Hx : Ascii.eqb c1 "x" || Ascii.eqb c1 "X" = false) by (digit_is_not Hc1; reflexivity).
  assert (Ho : Ascii.eqb c1 "o" || Ascii.eqb c1 "O" = false) by (digit_is_not Hc1; reflexivity).
  assert (Hb : Ascii.eqb c1 "b" || Ascii.eqb c1 "B" = false) by (digit_is_not Hc1; reflexivity).
  rewrite Hx, Ho, Hb, !andb_false_r. exact Hdec.
Qed.

Lemma StringToNumber_minus_digits c t :
  isDecimalDigit c = true -> allChars isDecimalDigit t = true ->
  StringToNumber (String "-" (String c t)) =
    negate (ofInteger (decimalValue (String c t))).
Proof.
  intros Hc Ht. unfold StringToNumber.
  assert (Htrim : trimEnd (trimStart (String "-" (String c t)))
                  = String "-" (String c t)).
  { change (trimStart (String "-" (String c t))) with (String "-" (String c t)).
    rewrite trimEnd_cons by reflexivity.
    rewrite trimEnd_digits by (cbn [allChars]; rewrite Hc, Ht; reflexivity).
    reflexivity. }
  rewrite Htrim.
  change (Ascii.eqb "-" "0") with false. cbn [andb].
  unfold parseDecimal. change (Ascii.eqb "-" "+") with false.
  change (Ascii.eqb "-" "-") with true. cbv iota.
  rewrite parseUnsignedDecimal_digits by assumption. reflexivity.
Qed.

Lemma decimalValue_to_uint p :
  decimalValue (NilEmpty.string_of_uint (Pos.to_uint p)) = Z.pos p.
Proof.
  unfold decimalValue. rewrite NilEmpty.usu.
  unfold Z.of_uint. rewrite DecimalPos.Unsigned.of_to. reflexivity.
Qed.

Lemma numToString_pos p :
  exists c t, isDecimalDigit c = true /\ allChars isDecimalDigit t = true
    /\ NilZero.string_of_uint (Pos.to_uint p) = String c t
    /\ decimalValue (String c t) = Z.pos p.
Proof.
  pose proof (DecimalPos.Unsigned.to_uint_nonnil p) as Hnil.
  pose proof (string_of_uint_digits (Pos.to_uint p)) as Hd.
  pose proof (decimalValue_to_uint p) as Hv.
  assert (Hz : NilZero.string_of_uint (Pos.to_uint p)
               = NilEmpty.string_of_uint (Pos.to_uint p))
    by (destruct (Pos.to_uint p); [congruence | reflexivity ..]).
  rewrite Hz.
  destruct (NilEmpty.string_of_uint (Pos.to_uint p)) as [|c t] eqn:E.
  - destruct (Pos.to_uint p); solve [congruence | discriminate E].
  - cbn [allChars] in Hd. apply andb_true_iff in Hd as [Hc Ht].
    exists c, t. auto.
Qed.

(** converting the numeral of a safe integer gives the integer back *)
Lemma StringToNumber_numToString n :
  Z.abs n < 2 ^ 53 -> StringToNumber (JS.numToString n) = Int n.
Proof.
  intros Hn. unfold JS.numToString.
  destruct n as [|p|p]; [reflexivity | |].
  - cbn [Z.to_int NilZero.string_of_int].
    destruct (numToString_pos p) as (c & t & Hc & Ht & -> & Hv).
    rewrite StringToNumber_digits, Hv by assumption.
    apply round_safe, Hn.
  - cbn [Z.to_int NilZero.string_of_int].
    destruct (numToString_pos p) as (c & t & Hc & Ht & -> & Hv).
    rewrite StringToNumber_minus_digits, Hv by assumption.
    unfold ofInteger. rewrite round_safe by exact Hn. reflexivity.
Qed.

Lemma round_tracked n d : tracked (round n d).
Proof.
  unfold round.
  destruct ((d =? 1) && isSafeInteger n) eqn:E.
  - apply andb_true_iff in E as [_ E]. apply Z.ltb_lt in E. exact E.
  - destruct (n =? 0); [reflexivity|].
    destruct (roundPositive (Z.abs n) d) as [[m e]|]; [|exact I].
    destruct (m =? 0); [reflexivity|]. unfold ofBinary.
    destruct (oddPart 64 (Z.sgn n * m) e) as [m' e'].
    destruct ((0 <=? e') && isSafeInteger (m' * 2 ^ e')) eqn:E'; [|exact I].
    apply andb_true_iff in E' as [_ E']. apply Z.ltb_lt in E'. exact E'.
Qed.

Lemma ofDecimal_tracked m e : tracked (ofDecimal m e).
Proof.
  unfold ofDecimal. destruct (m =? 0); [reflexivity|].
  destruct (0 <=? e).
  - destruct (400 <? e); [exact I | apply round_tracked].
  - destruct (_ <? _); [reflexivity | apply round_tracked].
Qed.

Lemma negate_tracked x : tracked x -> tracked (negate x).
Proof. destruct x; cbn; auto. intros H. rewrite Z.abs_opp. exact H. Qed.

Lemma parseUnsignedDecimal_tracked body :
  tracked (default NaN (parseUnsignedDecimal body)).
Proof.
  unfold parseUnsignedDecimal.
  destruct (String.eqb body "Infinity"); [exact I|].
  destruct (span isDecimalDigit body) as [ip r1].
  destruct (match r1 with
            | EmptyString => (EmptyString, r1)
            | String c r => if Ascii.eqb c "." then span isDecimalDigit r
                            else (EmptyString, r1)
            end) as [fp r2].
  destruct (String.eqb ip "" && String.eqb fp ""); [exact I|].
  destruct (parseExponent r2) as [e|]; [|exact I].
  cbn [default]. apply ofDecimal_tracked.
Qed.

Lemma parseDecimal_tracked t : tracked (parseDecimal t).
Proof.
  unfold parseDecimal. destruct t as [|c body]; [exact I|].
  destruct (Ascii.eqb c "+"); [apply parseUnsignedDecimal_tracked|].
  destruct (Ascii.eqb c "-");
    [apply negate_tracked|]; apply parseUnsignedDecimal_tracked.
Qed.

Lemma parseNonDecimal_tracked base ds : tracked (parseNonDecimal base ds).
Proof.
  unfold parseNonDecimal.
  destruct (_ && _); [apply round_tracked | exact I].
Qed.

(** the integers that [StringToNumber] returns as [Int] are of magnitude
    below 2^53 *)
Lemma StringToNumber_tracked s : tracked (StringToNumber s).
Proof.
  unfold StringToNumber.
  destruct (trimEnd (trimStart s)) as [|c0 [|c1 ds]];
    [cbn; lia | apply parseDecimal_tracked |].
  repeat (destruct (_ && _); [apply parseNonDecimal_tracked|]).
  apply parseDecimal_tracked.
Qed.

Lemma underscore_differs (s : string) : ("_" +:+ s)%string <> s.
Proof.
  intros E. apply (f_equal String.length) in E.
  rewrite length_append in E. cbn in E. lia.
Qed.

(** the two outcomes of the test [str === +str + ""] *)
Lemma avoidNumber_cases s :
  (s = toString (StringToNumber s) /\ avoidNumber s = ("_" +:+ s)%string)
  \/ (s <> toString (StringToNumber s) /\ avoidNumber s = s).
Proof.
  unfold avoidNumber.
  destruct (String.eqb_spec s (toString (StringToNumber s))) as [E|E]; auto.
Qed.

Lemma avoidNumber_of_canonical s :
  isCanonicalInteger s -> avoidNumber s = ("_" +:+ s)%string.
Proof.
  intros [->|[->|[->|(n & Hn & ->)]]]; [reflexivity ..|].
  unfold avoidNumber. rewrite StringToNumber_numToString by exact Hn.
  cbn [toString]. rewrite String.eqb_refl. reflexivity.
Qed.

Lemma avoidNumber_integral s :
  isIntegral (StringToNumber s) = true ->
  avoidNumber s = ("_" +:+ s)%string -> isCanonicalInteger s.
Proof.
  intros Hint H.
  destruct (avoidNumber_cases s) as [[E _]|[_ E]];
    [|rewrite E in H; symmetry in H; apply underscore_differs in H; contradiction].
  pose proof (StringToNumber_tracked s) as Ht.
  destruct (StringToNumber s) as [|[|]|n|m e]; cbn [toString] in E;
    [| | | |discriminate Hint].
  - left. exact E.
  - right; right; left. exact E.
  - right; left. exact E.
  - right; right; right. exists n. split; [exact Ht | exact E].
Qed.

(** C8, as the code has it.  For every string [s], [avoidNumber s] is
    "_" + s when [s] is identical to the string form of the number it
    converts to, and [s] itself otherwise.  The strings "NaN", "Infinity",
    "-Infinity" and the decimal numerals of the integers of magnitude
    below 2^53 are prefixed, and among the strings that convert to NaN,
    an infinity or such an integer no other is.  avoidNumber("123") =
    "_123" and avoidNumber("abc") = "abc"; "1.5" is prefixed and "1.50"
    is not. *)
Theorem avoidNumber_canonical (s : string) :
  (s = toString (StringToNumber s) -> avoidNumber s = ("_" +:+ s)%string)
  /\ (s <> toString (StringToNumber s) -> avoidNumber s = s)
  /\ (isCanonicalInteger s -> avoidNumber s = ("_" +:+ s)%string)
  /\ (isIntegral (StringToNumber s) = true ->
      avoidNumber s = ("_" +:+ s)%string -> isCanonicalInteger s)
  /\ avoidNumber "123" = "_123"%string
  /\ avoidNumber "abc" = "abc"%string
  /\ avoidNumber "1.5" = "_1.5"%string
  /\ avoidNumber "1.50" = "1.50"%string.
Proof.
  split.
  { intros E. destruct (avoidNumber_cases s) as [[_ H]|[H _]];
      [exact H | contradiction]. }
  split.
  { intros E. destruct (avoidNumber_cases s) as [[H _]|[_ H]];
      [contradiction | exact H]. }
  split; [apply avoidNumber_of_canonical|].
  split; [apply avoidNumber_integral|].
  repeat split.
Qed.

Lemma avoidNumber_canonical_witness :
  isCanonicalInteger "123" /\ avoidNumber "123" = "_123"%string.
Proof.
  assert (H : isCanonicalInteger "123").
  { right; right; right. exists 123. split; [reflexivity | reflexivity]. }
  split; [exact H|].
  exact (proj1 (proj2 (proj2 (avoidNumber_canonical "123"))) H).
Defined.

(** C8, as the specification states it, fails in both directions: "007"
    and "1.0" parse as numbers and are returned unchanged, and "NaN" does
    not parse as a number and is prefixed. *)
Lemma avoidNumber_not_parse_test :
  (parsesAsNumber "007" = true /\ avoidNumber "007" = "007"%string)
  /\ (parsesAsNumber "1.0" = true /\ avoidNumber "1.0" = "1.0"%string)
  /\ (parsesAsNumber "NaN" = false /\ avoidNumber "NaN" = "_NaN"%string).
Proof. repeat split. Qed.
End AvoidNumberFacts.
(** ** Name derivation *)

Section RequestToIdFacts.
Import CharClass.

Lemma replaceRuns_idChars s : forall atStart inRun,
  allChars isIdChar (replaceRuns atStart inRun s) = true.
Proof.
  induction s as [|c s IH]; intros atStart inRun; [reflexivity|].
  cbn [replaceRuns]. unfold matchesGroup.
  destruct (isIdChar c) eqn:Ec; cbn [negb]; rewrite orb_false_r || rewrite orb_true_r.
  - destruct (atStart && (Ascii.eqb c "." || Ascii.eqb c "-")).
    + destruct inRun; cbn [allChars]; rewrite ?IH; reflexivity.
    + cbn [allChars]. rewrite Ec, IH. reflexivity.
  - destruct inRun; cbn [allChars]; rewrite ?IH; reflexivity.
Qed.

Lemma replaceRuns_empty s atStart inRun :
  replaceRuns atStart inRun s = "" -> inRun = false -> s = "".
Proof.
  destruct s as [|c s]; [reflexivity|]. cbn [replaceRuns].
  intros H ->. destruct (matchesGroup atStart c); discriminate H.
Qed.

(** C5, as the code has it. Every character of [requestToId s] is an ASCII
    letter, a digit, an underscore or a hyphen; the result is empty exactly
    when nothing is left of [s] once its leading "./" and "../" segments
    are removed (so it matches [^[A-Za-z0-9_-]*$], and [^[A-Za-z0-9_-]+$]
    exactly when that remainder is not empty). *)
Theorem requestToId_idChars (s : string) :
  allChars isIdChar (requestToId s) = true
  /\ (requestToId s = "" <-> stripRelativePrefix s = "")
  /\ (matchesIdPattern (requestToId s) = true <-> stripRelativePrefix s <> "").
Proof.
  assert (Hempty : requestToId s = "" <-> stripRelativePrefix s = "").
  { unfold requestToId. split.
    - intros H. eapply replaceRuns_empty; [exact H | reflexivity].
    - intros ->. reflexivity. }
  split; [apply replaceRuns_idChars|]. split; [exact Hempty|].
  unfold matchesIdPattern. unfold requestToId at 2.
  rewrite replaceRuns_idChars, andb_true_r, negb_true_iff.
  rewrite <- Hempty. split.
  - intros H Heq. rewrite Heq in H. discriminate H.
  - intros H. apply String.eqb_neq. exact H.
Qed.

(** C5, as the specification states it, fails: the empty request, and a
    request made of relative segments only, are mapped to the empty string,
    which does not match [^[A-Za-z0-9_-]+$]. *)
Lemma requestToId_empty_result :
  requestToId "" = "" /\ requestToId "./../" = ""
  /\ matchesIdPattern (requestToId "./../") = false.
Proof. repeat split. Qed.
End RequestToIdFacts.

(** ** Counting strings *)

Section Counting.
Import Words.

Lemma length_bind_const {X Y : Type} (f : X -> list Y) (k : nat) (l : list X) :
  (forall x, length (f x) = k) -> length (l ≫= f) = (length l * k)%nat.
Proof.
  intros Hf. induction l as [|x l IH]; [reflexivity|].
  rewrite bind_cons, length_app, Hf, IH. reflexivity.
Qed.

Lemma length_words alphabet n :
  length (words alphabet n) = (length alphabet ^ n)%nat.
Proof.
  induction n as [|n IH]; [reflexivity|]. cbn [words Nat.pow].
  rewrite (length_bind_const _ (length alphabet ^ n)); [reflexivity|].
  intros c. rewrite length_fmap. exact IH.
Qed.

Lemma NoDup_words alphabet n : NoDup alphabet -> NoDup (words alphabet n).
Proof.
  intros Ha. induction n as [|n IH]; [apply NoDup_singleton|].
  cbn [words]. apply NoDup_bind; [| |exact Ha].
  - intros c1 c2 w _ _ H1 H2.
    apply list_elem_of_fmap in H1 as (w1 & -> & _).
    apply list_elem_of_fmap in H2 as (w2 & E & _). congruence.
  - intros c _. apply NoDup_fmap_2; [|exact IH].
    intros w1 w2 E. congruence.
Qed.

Lemma elem_of_words alphabet n (s : string) :
  (forall c : ascii, c ∈ alphabet) -> String.length s = n -> s ∈ words alphabet n.
Proof.
  intros Hall. revert s. induction n as [|n IH]; intros [|c s] Hlen;
    try discriminate Hlen.
  - apply list_elem_of_singleton. reflexivity.
  - cbn [words]. apply list_elem_of_bind. exists c. split; [|apply Hall].
    apply list_elem_of_fmap. exists s. split; [reflexivity|].
    apply IH. cbn [String.length] in Hlen. lia.
Qed.

Lemma length_of_words alphabet n (s : string) :
  s ∈ words alphabet n -> String.length s = n.
Proof.
  revert s. induction n as [|n IH]; intros s Hs; cbn [words] in Hs.
  - apply list_elem_of_singleton in Hs as ->. reflexivity.
  - apply list_elem_of_bind in Hs as (c & Hs & _).
    apply list_elem_of_fmap in Hs as (w & -> & Hw).
    cbn [String.length]. rewrite (IH w Hw). reflexivity.
Qed.

Lemma elem_of_bits (b : bool) : b ∈ bits.
Proof. destruct b; [right; left | left]. Qed.

Lemma elem_of_allAscii (c : ascii) : c ∈ allAscii.
Proof.
  destruct c as [b0 b1 b2 b3 b4 b5 b6 b7]. unfold allAscii.
  apply list_elem_of_bind; exists b0; split; [|apply elem_of_bits].
  apply list_elem_of_bind; exists b1; split; [|apply elem_of_bits].
  apply list_elem_of_bind; exists b2; split; [|apply elem_of_bits].
  apply list_elem_of_bind; exists b3; split; [|apply elem_of_bits].
  apply list_elem_of_bind; exists b4; split; [|apply elem_of_bits].
  apply list_elem_of_bind; exists b5; split; [|apply elem_of_bits].
  apply list_elem_of_bind; exists b6; split; [|apply elem_of_bits].
  apply list_elem_of_bind; exists b7; split; [|apply elem_of_bits].
  apply list_elem_of_singleton. reflexivity.
Qed.

Lemma elem_of_upTo6 (s : string) :
  (String.length s <= 6)%nat -> s ∈ upTo6.
Proof.
  intros Hlen. unfold upTo6. rewrite !elem_of_app.
  assert (Hw := fun n => elem_of_words allAscii n s elem_of_allAscii).
  destruct (String.length s) as [|[|[|[|[|[|[|n]]]]]]] eqn:E;
    [auto 10 .. | lia].
Qed.

Lemma length_upTo6_lt : (length upTo6 < length longInputs)%nat.
Proof.
  unfold upTo6, longInputs.
  rewrite !length_app, length_fmap, !length_words.
  change (length allAscii) with 256%nat.
  change (length ["a"; "b"]%char) with 2%nat.
  apply Nat2Z.inj_lt. rewrite !Nat2Z.inj_add, !Nat2Z.inj_pow. reflexivity.
Qed.

Lemma NoDup_longInputs : NoDup longInputs.
Proof.
  unfold longInputs. apply NoDup_fmap_2; [apply String.app_inj|].
  apply NoDup_words. apply NoDup_cons. split.
  - intros H. apply list_elem_of_singleton in H. discriminate H.
  - apply NoDup_singleton.
Qed.

Lemma longInputs_shape (s : string) :
  s ∈ longInputs ->
  String.length s = 150%nat /\ substring 0 101 s = repeatChar "a" 101.
Proof.
  unfold longInputs. intros H.
  apply list_elem_of_fmap in H as (w & -> & Hw).
  apply length_of_words in Hw. split.
  - rewrite length_append, Hw. reflexivity.
  - generalize 101%nat. intros n. induction n as [|n IH]; cbn [repeatChar].
    + destruct w; reflexivity.
    + rewrite append_cons. cbn [substring]. rewrite IH. reflexivity.
Qed.

(** a function from a list without duplicates into a shorter list takes
    the same value twice *)
Lemma pigeonhole {X Y : Type} `{EqDecision Y} (f : X -> Y)
    (xs : list X) (ys : list Y) :
  NoDup xs -> (forall x, x ∈ xs -> f x ∈ ys) ->
  (length ys < length xs)%nat ->
  exists x1 x2, x1 ∈ xs /\ x2 ∈ xs /\ x1 <> x2 /\ f x1 = f x2.
Proof.
  intros Hnd Hin Hlen.
  assert (Hcases : (exists x1 x2, x1 ∈ xs /\ x2 ∈ xs /\ x1 <> x2 /\ f x1 = f x2)
                   \/ NoDup (f <$> xs)).
  { clear Hin Hlen. induction Hnd as [|x xs Hx Hnd IH].
    - right. constructor.
    - destruct IH as [(x1 & x2 & H1 & H2 & Hne & Heq)|IH].
      + left. exists x1, x2. repeat split; auto using list_elem_of_further.
      + destruct (decide (f x ∈ f <$> xs)) as [Hfx|Hfx].
        * left. apply list_elem_of_fmap in Hfx as (x' & Heq & Hx').
          exists x, x'. repeat split; auto using list_elem_of_here, list_elem_of_further.
          intros ->. contradiction.
        * right. rewrite fmap_cons. apply NoDup_cons. split; assumption. }
  destruct Hcases as [H|H]; [exact H|]. exfalso.
  assert (Hsub : f <$> xs ⊆+ ys).
  { apply NoDup_submseteq; [exact H|]. intros y Hy.
    apply list_elem_of_fmap in Hy as (x & -> & Hx). apply Hin, Hx. }
  apply submseteq_length in Hsub. rewrite length_fmap in Hsub. lia.
Qed.
End Counting.

(** ** [shortenLongString] *)

Section ShortenLongStringFacts.
Import CharClass Words.
Variable md4 : string -> string.

Lemma slice_prefix (s : string) (n : Z) :
  0 <= n <= Z.of_nat (String.length s) ->
  JS.slice s 0 n = substring 0 (Z.to_nat n) s.
Proof.
  intros Hn. unfold JS.slice.
  destruct (0 <? 0) eqn:E0; [discriminate E0|].
  destruct (n <? 0) eqn:En; [apply Z.ltb_lt in En; lia|].
  rewrite Z.min_l by lia. rewrite (Z.min_l n) by lia.
  rewrite Z.sub_0_r, Z.max_l by lia. reflexivity.
Qed.

Lemma allChars_substring p n (s : string) :
  allChars p s = true -> allChars p (substring 0 n s) = true.
Proof.
  revert s. induction n as [|n IH]; intros [|c s] H; try reflexivity.
  cbn [allChars substring] in *. apply andb_true_iff in H as [Hc Hs].
  rewrite Hc, (IH s Hs). reflexivity.
Qed.

Lemma shortenLongString_short (s d : string) :
  (String.length s < 100)%nat -> shortenLongString md4 s d = s.
Proof.
  intros H. unfold shortenLongString.
  destruct (Z.of_nat (String.length s) <? 100) eqn:E; [reflexivity|].
  apply Z.ltb_ge in E. lia.
Qed.

Lemma shortenLongString_long (s d : string) :
  (100 <= String.length s)%nat -> (String.length d <= 94)%nat ->
  shortenLongString md4 s d =
    substring 0 (94 - String.length d) s +:+ d +:+ getHash md4 s 6.
Proof.
  intros Hs Hd. unfold shortenLongString.
  destruct (Z.of_nat (String.length s) <? 100) eqn:E;
    [apply Z.ltb_lt in E; lia|].
  rewrite slice_prefix by lia.
  replace (Z.to_nat (100 - 6 - Z.of_nat (String.length d)))
    with (94 - String.length d)%nat by lia.
  reflexivity.
Qed.

(** Whatever the digest function, two different inputs of 150 characters
    with a common prefix of more than 94 characters get the same 6
    characters of hash: there are more such inputs than strings of at most
    6 characters. *)
Lemma getHash_collision :
  exists s1 s2 : string,
    String.length s1 = 150%nat /\ String.length s2 = 150%nat
    /\ substring 0 94 s1 = substring 0 94 s2
    /\ s1 <> s2
    /\ getHash md4 s1 6 = getHash md4 s2 6
    /\ shortenLongString md4 s1 "~" = shortenLongString md4 s2 "~".
Proof.
  destruct (pigeonhole (fun s => getHash md4 s 6) longInputs upTo6)
    as (s1 & s2 & H1 & H2 & Hne & Heq).
  - exact NoDup_longInputs.
  - intros s _. apply elem_of_upTo6. unfold getHash, JS.substr0.
    rewrite length_substring_0. change (Z.to_nat 6) with 6%nat. lia.
  - exact length_upTo6_lt.
  - apply longInputs_shape in H1 as [L1 P1], H2 as [L2 P2].
    assert (Hpre : forall n, (n <= 101)%nat -> substring 0 n s1 = substring 0 n s2).
    { intros n Hn.
      assert (Hsub : forall s : string, substring 0 n (substring 0 101 s) = substring 0 n s).
      { intros s. generalize 101%nat Hn. clear. revert s.
        induction n as [|n IH]; intros s m Hm.
        - destruct (substring 0 m s), s; reflexivity.
        - destruct m as [|m]; [lia|]. destruct s as [|c s]; [reflexivity|].
          cbn [substring]. rewrite IH by lia. reflexivity. }
      rewrite <- (Hsub s1), <- (Hsub s2), P1, P2. reflexivity. }
    exists s1, s2. repeat split; try assumption.
    + apply Hpre. lia.
    + cbv beta in Heq.
      rewrite !shortenLongString_long by (rewrite ?L1, ?L2; cbn; lia).
      rewrite Heq, (Hpre (94 - String.length "~")%nat) by (cbn; lia).
      reflexivity.
Qed.

(** C7, as the code has it. An input shorter than 100 characters is
    returned unchanged.  For an input of at least 100 characters and a
    delimiter of at most 94 characters the result is the first 94 - |d|
    characters of the input, then d, then the first 6 characters of the hex
    digest of the whole input: it has exactly 100 characters and ends in d
    followed by 6 hex characters.  Two inputs get different suffixes exactly
    when the first 6 hex characters of their digests differ, which is not
    guaranteed: some two different inputs of 150 characters with the same
    first 94 characters are shortened to the same string. *)
Theorem shortenLongString_spec (s d : string) :
  ((String.length s < 100)%nat -> shortenLongString md4 s d = s)
  /\ ((100 <= String.length s)%nat -> (String.length d <= 94)%nat ->
      isHexDigest (md4 s) = true -> (6 <= String.length (md4 s))%nat ->
      shortenLongString md4 s d =
        substring 0 (94 - String.length d) s +:+ d +:+ getHash md4 s 6
      /\ String.length (shortenLongString md4 s d) = 100%nat
      /\ String.length (getHash md4 s 6) = 6%nat
      /\ isHexDigest (getHash md4 s 6) = true)
  /\ (exists s1 s2 : string,
        String.length s1 = 150%nat /\ String.length s2 = 150%nat
        /\ substring 0 94 s1 = substring 0 94 s2 /\ s1 <> s2
        /\ shortenLongString md4 s1 "~" = shortenLongString md4 s2 "~").
Proof.
  split; [apply shortenLongString_short|]. split.
  - intros Hs Hd Hhex Hlen.
    assert (Hh : String.length (getHash md4 s 6) = 6%nat).
    { unfold getHash, JS.substr0. rewrite length_substring_0.
      change (Z.to_nat 6) with 6%nat. lia. }
    split; [apply shortenLongString_long; assumption|].
    split; [|split; [exact Hh|]].
    + rewrite shortenLongString_long by assumption.
      rewrite !length_append, Hh, length_substring_0. lia.
    + unfold getHash, JS.substr0, isHexDigest.
      apply allChars_substring. exact Hhex.
  - destruct getHash_collision as (s1 & s2 & L1 & L2 & P & Hne & _ & Heq).
    exists s1, s2. auto.
Qed.

(** The result for a delimiter of 95 characters: [slice(0, -1)] keeps all
    but the last character of the input. *)
Lemma shortenLongString_long_delimiter :
  (100 < String.length
           (shortenLongString md4 (repeatChar "a" 100) (repeatChar "~" 95)))%nat.
Proof.
  unfold shortenLongString.
  change (Z.of_nat (String.length (repeatChar "a" 100)) <? 100) with false.
  cbv iota. rewrite !length_append.
  change (String.length (JS.slice (repeatChar "a" 100) 0
            (100 - 6 - Z.of_nat (String.length (repeatChar "~" 95))))) with 99%nat.
  change (String.length (repeatChar "~" 95)) with 95%nat. lia.
Qed.
End ShortenLongStringFacts.

Lemma shortenLongString_spec_witness :
  (100 <= String.length (Words.repeatChar "a" 150))%nat
  /\ String.length
       (shortenLongString Samples.toyDigest (Words.repeatChar "a" 150) "~")
     = 100%nat.
Proof.
  assert (H1 : (100 <= String.length (Words.repeatChar "a" 150))%nat)
    by (vm_compute; lia).
  split; [exact H1|].
  destruct (proj1 (proj2 (shortenLongString_spec Samples.toyDigest
                            (Words.repeatChar "a" 150) "~")) H1)
    as (_ & H & _); [vm_compute; lia | reflexivity | vm_compute; lia | exact H].
Defined.

(** C7, as the specification states it, fails twice.  With a delimiter of 95
    characters the result of shortening 100 characters is longer than 100
    characters, whatever the hash; and whatever the hash, two different
    inputs of 150 characters with the same first 94 characters get the same
    suffix. *)
Lemma shortenLongString_not_as_specified :
  (exists s d : string,
     (100 <= String.length s)%nat
     /\ forall md4, (100 < String.length (shortenLongString md4 s d))%nat)
  /\ (forall md4, exists s1 s2 : string,
        String.length s1 = 150%nat /\ String.length s2 = 150%nat
        /\ substring 0 94 s1 = substring 0 94 s2 /\ s1 <> s2
        /\ getHash md4 s1 6 = getHash md4 s2 6).
Proof.
  split.
  - exists (Words.repeatChar "a" 100), (Words.repeatChar "~" 95).
    split; [cbn; lia|]. intros md4. apply shortenLongString_long_delimiter.
  - intros md4.
    destruct (getHash_collision md4) as (s1 & s2 & L1 & L2 & P & Hne & Heq & _).
    exists s1, s2. auto.
Qed.

(** ** Chunk names *)

Section ChunkNameFacts.
Variable md4 : string -> string.
Variable makePathsRelative : string -> string -> string.
Variable getChunkRootModules : Chunk -> list Module.

(** C10. Computing the short or the long name of a chunk sorts the hints of
    the chunk in place: in the chunk that either call leaves, [idNameHints]
    holds the same hints in ascending order, and [name], [id] and [ids] are
    as before. *)
Theorem chunkName_sorts_hints (chunk : Chunk) (context delimiter : string) :
  let after_short :=
    snd (getShortChunkName md4 getChunkRootModules chunk context delimiter) in
  let after_long :=
    snd (getLongChunkName md4 makePathsRelative getChunkRootModules
                          chunk context delimiter) in
  after_short = after_long
  /\ Sorted (cmp_le JS.compareStrings) (idNameHints after_short)
  /\ Permutation (idNameHints chunk) (idNameHints after_short)
  /\ name after_short = name chunk
  /\ id after_short = id chunk
  /\ ids after_short = ids chunk.
Proof.
  cbv zeta. split; [reflexivity|]. cbn [getShortChunkName snd idNameHints name id ids].
  split; [apply sort_sorted, compareStrings_total|].
  split; [apply sort_perm|]. repeat split.
Qed.
End ChunkNameFacts.

(** ** Looking for a free number *)

Section FirstFreeFacts.

Lemma numToString_inj (a b : Z) : JS.numToString a = JS.numToString b -> a = b.
Proof.
  unfold JS.numToString. intros H.
  apply DecimalZ.to_int_inj.
  assert (Hnil : forall z, Z.to_int z <> Decimal.Pos Decimal.Nil
                        /\ Z.to_int z <> Decimal.Neg Decimal.Nil).
  { intros [|p|p]; cbn [Z.to_int]; split; try discriminate;
      intros E; injection E as E;
      exact (DecimalPos.Unsigned.to_uint_nonnil p E). }
  destruct (Hnil a) as [Ha1 Ha2], (Hnil b) as [Hb1 Hb2].
  pose proof (NilZero.isi _ Ha1 Ha2) as Ea.
  pose proof (NilZero.isi _ Hb1 Hb2) as Eb.
  rewrite H in Ea. congruence.
Qed.

Lemma append_numToString_inj (name : string) (a b : Z) :
  name +:+ JS.numToString a = name +:+ JS.numToString b -> a = b.
Proof. intros H. apply numToString_inj. eapply String.app_inj, H. Qed.

Lemma firstFree_ge fuel taken : forall i, i <= firstFree fuel taken i.
Proof.
  induction fuel as [|fuel IH]; intros i; cbn [firstFree]; [lia|].
  destruct (taken i); [|lia]. specialize (IH (i + 1)). lia.
Qed.

Lemma firstFree_skipped fuel taken : forall i j,
  i <= j < firstFree fuel taken i -> taken j = true.
Proof.
  induction fuel as [|fuel IH]; intros i j Hj; cbn [firstFree] in Hj; [lia|].
  destruct (taken i) eqn:E; [|lia].
  destruct (Z.eq_dec j i) as [->|Hne]; [exact E|].
  apply (IH (i + 1)). lia.
Qed.

(** The loop is left with a number that is not taken, when the taken
    numbers are named, one to one, by the strings of a set with fewer
    than [fuel] elements. *)
Lemma firstFree_free (str : Z -> string) (taken : Z -> bool) :
  (forall a b, str a = str b -> a = b) ->
  forall fuel (U : gset string) i,
    (forall j, i <= j -> taken j = true -> str j ∈ U) ->
    (size U < fuel)%nat ->
    taken (firstFree fuel taken i) = false.
Proof.
  intros Hinj. induction fuel as [|fuel IH]; intros U i HU Hsize; [lia|].
  cbn [firstFree]. destruct (taken i) eqn:E; [|exact E].
  apply (IH (U ∖ {[str i]})).
  - intros j Hj Ht. apply elem_of_difference. split; [apply HU; [lia|exact Ht]|].
    intros Hs. apply elem_of_singleton in Hs. apply Hinj in Hs. lia.
  - assert (Hin : str i ∈ U) by (apply HU; [lia|exact E]).
    assert (Hpos : (0 < size U)%nat).
    { destruct (size U) eqn:E0; [|lia].
      apply size_empty_inv in E0. apply E0 in Hin.
      apply not_elem_of_empty in Hin. contradiction. }
    rewrite size_difference by (apply singleton_subseteq_l, Hin).
    rewrite size_singleton. lia.
Qed.

(** [while (usedIds.has(nextId + "")) nextId++] ends on the least number,
    from [nextId] on, whose string is not in [usedIds]. *)
Lemma skipUsedIds_spec (usedIds : gset string) (nextId : Z) :
  let n := skipUsedIds usedIds nextId in
  nextId <= n
  /\ (JS.numToString n ∉ usedIds)
  /\ forall j, nextId <= j < n -> JS.numToString j ∈ usedIds.
Proof.
  cbv zeta. unfold skipUsedIds. split; [apply firstFree_ge|]. split.
  - assert (H := firstFree_free JS.numToString
                   (fun n => has usedIds (JS.numToString n))
                   numToString_inj (S (size usedIds)) usedIds nextId).
    cbv beta in H. unfold has at 2 in H.
    rewrite bool_decide_eq_false in H. apply H; [|lia].
    intros j _ Hj. unfold has in Hj. apply bool_decide_eq_true in Hj. exact Hj.
  - intros j Hj. apply firstFree_skipped in Hj. cbv beta in Hj.
    unfold has in Hj. apply bool_decide_eq_true in Hj. exact Hj.
Qed.

(** The [while] loop of [assignNames] is left at the least [i], from the
    current one on, for which [name + i] is not both the name of a bucket
    and a used name. *)
Lemma numbering_loop_exit {T : Type} (nameToItems2 : list (string * list T))
    (usedIds : gset string) (name : string) (i : Z) :
  let taken := fun i => mapHas nameToItems2 (name +:+ JS.numToString i)
                        && has usedIds (name +:+ JS.numToString i) in
  let i' := firstFree (S (size usedIds)) taken i in
  i <= i' /\ taken i' = false /\ forall j, i <= j < i' -> taken j = true.
Proof.
  intros taken i'. subst i'. split; [apply firstFree_ge|]. split.
  - apply (firstFree_free (fun i => name +:+ JS.numToString i) taken
             (append_numToString_inj name) (S (size usedIds)) usedIds i); [|lia].
    intros j _ Hj. subst taken. cbv beta in Hj.
    apply andb_true_iff in Hj as [_ Hj].
    unfold has in Hj. apply bool_decide_eq_true in Hj. exact Hj.
  - intros j Hj. exact (firstFree_skipped _ _ _ _ Hj).
Qed.

Lemma ceilLog10_from_spec (x : Z) : forall fuel k,
  0 <= k -> 5 * x + 4 <= 4 * 10 ^ (k + Z.of_nat fuel) ->
  (forall j, 0 <= j < k -> 4 * 10 ^ j < 5 * x + 4) ->
  let r := ceilLog10_from fuel k x in
  k <= r /\ 5 * x + 4 <= 4 * 10 ^ r
  /\ forall j, 0 <= j < r -> 4 * 10 ^ j < 5 * x + 4.
Proof.
  induction fuel as [|fuel IH]; intros k Hk Hfuel Hbelow; cbv zeta;
    cbn [ceilLog10_from].
  - rewrite Z.add_0_r in Hfuel. split; [lia|]. split; assumption.
  - destruct (5 * x + 4 <=? 4 * 10 ^ k) eqn:E.
    + apply Z.leb_le in E. split; [lia|]. split; assumption.
    + apply Z.leb_gt in E.
      destruct (IH (k + 1)) as (H1 & H2 & H3); [lia | | |].
      * replace (k + 1 + Z.of_nat fuel) with (k + Z.of_nat (S fuel)) by lia.
        exact Hfuel.
      * intros j Hj. destruct (Z.eq_dec j k) as [->|Hne]; [exact E|].
        apply Hbelow. lia.
      * split; [lia|]. split; assumption.
Qed.

(** [optimalLength n] is [ceil(log10(n * 1.25 + 1))]: the least [k >= 0]
    with [n * 1.25 + 1 <= 10^k]. *)
Lemma optimalLength_spec (n : nat) :
  let k := optimalLength n in
  0 <= k /\ 5 * Z.of_nat n + 4 <= 4 * 10 ^ k
  /\ forall j, 0 <= j < k -> 4 * 10 ^ j < 5 * Z.of_nat n + 4.
Proof.
  cbv zeta. unfold optimalLength. apply ceilLog10_from_spec; [lia | | lia].
  set (x := 5 * Z.of_nat n + 4).
  assert (Hx : 0 < x) by (subst x; lia).
  rewrite Z.add_0_l.
  destruct (Z.log2_spec x Hx) as [_ Hlt].
  assert (Hpow : 2 ^ Z.succ (Z.log2 x) <= 10 ^ Z.succ (Z.log2 x)).
  { apply Z.pow_le_mono_l. lia. }
  replace (Z.of_nat (S (Z.to_nat (Z.log2 x)))) with (Z.succ (Z.log2 x))
    by (pose proof (Z.log2_nonneg x); lia).
  lia.
Qed.

Example optimalLength_1000 : optimalLength 1000 = 4.
Proof. reflexivity. Qed.
End FirstFreeFacts.

(** ** [assignNames]: the numbering loop and reserved names *)

Section AssignNamesExamples.
Import Samples.

(** C1, at a failing input. One item with the short name "a", and the
    names "a" and "a0" reserved.  The bucket "a" is resolved by numbering.
    No bucket is called "a0", so the condition
    [nameToItems2.has(name + i) && usedIds.has(name + i)] is false at
    [i = 0] and the item is named "a0", which is reserved; the least [i]
    for which "a" + i is neither the name of a bucket nor reserved is 1. *)
Theorem assignNames_assigns_reserved_name :
  assignNames getShort getLong byKey [item 1 "a" "a?1"] {["a"; "a0"]}
    = ([(item 1 "a" "a?1", "a0")], {["a"; "a0"]}, [])
  /\ "a0" ∈ ({["a"; "a0"]} : gset string)
  /\ ("a1" ∉ ({["a"; "a0"]} : gset string))
  /\ mapHas (regroup getLong (groupByShortName getShort [item 1 "a" "a?1"]))
            "a1" = false.
Proof.
  split; [|split; [|split]].
  - vm_compute. reflexivity.
  - string_set.
  - string_set.
  - reflexivity.
Qed.

(** C2, at two failing inputs.  With the names "a" and "a0" reserved, the
    only item of the pass is named "a0", a member of the reserved set as it
    stood before the pass.  With nothing reserved, eleven items in the
    bucket "a" followed by one item with the short name "a1": the bucket
    "a" commits "a0" to "a10" ("a1" is the name of a bucket, but not used
    yet), then the bucket "a1", whose name is now used, commits "a1" + 0,
    which is "a10" again: two items of the pass carry the same name. *)
Theorem assignNames_not_unique :
  (exists name,
      fst (fst (assignNames getShort getLong byKey [item 1 "a" "a?1"] {["a"; "a0"]}))
        = [(item 1 "a" "a?1", name)]
      /\ name ∈ ({["a"; "a0"]} : gset string))
  /\ (let calls :=
        fst (fst (assignNames getShort getLong byKey
                    (elevenItems ++ [item 12 "a1" "x"]) ∅)) in
      calls !! 10%nat = Some (item 11 "s" "a", "a10")
      /\ calls !! 11%nat = Some (item 12 "a1" "x", "a10")).
Proof.
  split.
  - exists "a0". split; [vm_compute; reflexivity|]. string_set.
  - cbv zeta. split; vm_compute; reflexivity.
Qed.

(** C3, as the specification states it, fails for [assignNames]: the same
    two items, the same reserved set and the same comparator, yielded in
    the two possible orders, end with different names. *)
Lemma assignNames_depends_on_order :
  fst (fst (assignNames getShort getLong byKey
              [item 1 "a" "a?1"; item 2 "a0" "a0?2"] {["a"]}))
    = [(item 1 "a" "a?1", "a0"); (item 2 "a0" "a0?2", "a00")]
  /\ fst (fst (assignNames getShort getLong byKey
                 [item 2 "a0" "a0?2"; item 1 "a" "a?1"] {["a"]}))
    = [(item 2 "a0" "a0?2", "a0"); (item 1 "a" "a?1", "a1")].
Proof. split; vm_compute; reflexivity. Qed.
End AssignNamesExamples.

(** ** [assignNames]: the grouping and the unnamed items *)

Section GroupingFacts.
Context {T : Type}.
Variable getShortName : T -> string.
Variable getLongName : T -> string -> string.
Variable comparator : T -> T -> Z.

Lemma entries_cons (k : string) (arr : list T) map :
  entries ((k, arr) :: map) = (pair k <$> arr) ++ entries map.
Proof. reflexivity. Qed.

Lemma entries_add (map : list (string * list T)) k v :
  entries (addToMapOfItems map k v) ≡ₚ (k, v) :: entries map.
Proof.
  induction map as [|[k' arr] map IH]; cbn [addToMapOfItems]; [reflexivity|].
  destruct (String.eqb_spec k' k) as [->|Hne].
  - rewrite !entries_cons, fmap_app. cbn [fmap list_fmap].
    rewrite <- app_assoc. cbn [app]. symmetry. apply Permutation_middle.
  - rewrite !entries_cons, IH. symmetry. apply Permutation_middle.
Qed.

Lemma keys_add (map : list (string * list T)) k v :
  (addToMapOfItems map k v).*1
  = if decide (k ∈ map.*1) then map.*1 else map.*1 ++ [k].
Proof.
  induction map as [|[k' arr] map IH]; cbn [addToMapOfItems].
  - destruct (decide (k ∈ ([] : list (string * list T)).*1)) as [H|_];
      [inversion H | reflexivity].
  - destruct (String.eqb_spec k' k) as [->|Hne]; cbn [fmap list_fmap fst].
    + destruct (decide (k ∈ k :: map.*1)) as [_|H]; [reflexivity|].
      exfalso. apply H. left.
    + change (list_fmap _ _ fst (addToMapOfItems map k v))
        with ((addToMapOfItems map k v).*1).
      change (list_fmap _ _ fst map) with (map.*1). rewrite IH.
      destruct (decide (k ∈ map.*1)) as [H|H];
        destruct (decide (k ∈ k' :: map.*1)) as [H'|H']; try reflexivity.
      * exfalso. apply H'. right. exact H.
      * exfalso. apply elem_of_cons in H' as [E|H']; [congruence | contradiction].
Qed.

Lemma NoDup_keys_add (map : list (string * list T)) k v :
  NoDup map.*1 -> NoDup (addToMapOfItems map k v).*1.
Proof.
  intros H. rewrite keys_add. destruct (decide (k ∈ map.*1)) as [|Hk]; [exact H|].
  apply NoDup_app. split; [exact H|]. split; [|apply NoDup_singleton].
  intros x Hx Hx'. apply list_elem_of_singleton in Hx' as ->. contradiction.
Qed.

(** the first loop *)
Lemma groupByShortName_spec (items : list T) :
  entries (groupByShortName getShortName items)
    ≡ₚ (fun x => (getShortName x, x)) <$> items
  /\ NoDup (groupByShortName getShortName items).*1.
Proof.
  unfold groupByShortName.
  assert (H : forall map : list (string * list T),
    entries (fold_left (fun map item => addToMapOfItems map (getShortName item) item)
                       items map)
      ≡ₚ entries map ++ ((fun x => (getShortName x, x)) <$> items)
    /\ (NoDup map.*1 ->
        NoDup (fold_left (fun map item => addToMapOfItems map (getShortName item) item)
                         items map).*1)).
  { induction items as [|x items IH]; intros map; cbn [fold_left fmap list_fmap].
    - rewrite app_nil_r. auto.
    - destruct (IH (addToMapOfItems map (getShortName x) x)) as [IH1 IH2]. split.
      + rewrite IH1, entries_add. cbn [app]. apply Permutation_middle.
      + intros Hnd. apply IH2, NoDup_keys_add, Hnd. }
  destruct (H []) as [H1 H2]. split; [exact H1 | apply H2; constructor].
Qed.

(** the items of the bucket [k] are the entries with the key [k] *)
Lemma bucket_entries (map : list (string * list T)) k arr :
  NoDup map.*1 -> (k, arr) ∈ map ->
  filter (fun e => e.1 = k) (entries map) = pair k <$> arr.
Proof.
  assert (Hall : forall (k0 : string) (l : list T),
            filter (fun e : string * T => e.1 = k0) (pair k0 <$> l) = pair k0 <$> l).
  { intros k0 l. induction l as [|x l IHl]; [reflexivity|].
    cbn [fmap list_fmap]. rewrite filter_cons_True by reflexivity.
    f_equal. exact IHl. }
  assert (Hnone : forall (k0 k1 : string) (l : list T), k1 <> k0 ->
            filter (fun e : string * T => e.1 = k0) (pair k1 <$> l) = []).
  { intros k0 k1 l Hne. induction l as [|x l IHl]; [reflexivity|].
    cbn [fmap list_fmap]. rewrite filter_cons_False by (cbn; congruence).
    exact IHl. }
  induction map as [|[k' arr'] map IH]; intros Hnd Hin; [inversion Hin|].
  cbn [fmap list_fmap fst] in Hnd. apply NoDup_cons in Hnd as [Hk' Hnd].
  rewrite entries_cons, filter_app.
  apply elem_of_cons in Hin as [E|Hin].
  - injection E as <- <-. rewrite Hall.
    assert (Hrest : filter (fun e : string * T => e.1 = k) (entries map) = []).
    { clear IH Hnd. induction map as [|[k1 a1] map IHm]; [reflexivity|].
      rewrite entries_cons, filter_app, Hnone, IHm; [reflexivity | |].
      - intros H. apply Hk'. right. exact H.
      - intros ->. apply Hk'. left. }
    rewrite Hrest, app_nil_r. reflexivity.
  - assert (Hne : k' <> k).
    { intros ->. apply Hk'. apply list_elem_of_fmap. exists (k, arr). auto. }
    rewrite Hnone by exact Hne. cbn [app]. apply IH; assumption.
Qed.

(** every bucket of the first map holds all the items of its short name *)
Lemma bucket_of_group (items : list T) k arr :
  (k, arr) ∈ groupByShortName getShortName items ->
  (forall x, x ∈ arr -> getShortName x = k)
  /\ length arr = occurrences getShortName items k.
Proof.
  intros Hin. destruct (groupByShortName_spec items) as [Hp Hnd].
  pose proof (bucket_entries _ k arr Hnd Hin) as Hb. split.
  - intros x Hx.
    assert (Hx' : (k, x) ∈ entries (groupByShortName getShortName items)).
    { apply list_elem_of_bind. exists (k, arr). split; [|exact Hin].
      cbn. apply list_elem_of_fmap. exists x. auto. }
    rewrite Hp in Hx'. apply list_elem_of_fmap in Hx' as (y & E & _).
    injection E as -> ->. reflexivity.
  - unfold occurrences.
    rewrite <- (length_fmap (pair k) arr), <- Hb, Hp.
    clear. induction items as [|x items IH]; [reflexivity|].
    cbn [fmap list_fmap]. rewrite !filter_cons. cbn [fst].
    destruct (decide (getShortName x = k)); cbn [length]; rewrite IH; reflexivity.
Qed.

(** the second loop adds, bucket by bucket, what [regrouped] lists *)
Lemma regroup_spec (nameToItems : list (string * list T)) :
  entries (regroup getLongName nameToItems)
    ≡ₚ nameToItems ≫= regrouped getLongName.
Proof.
  unfold regroup.
  assert (Hinner : forall name (its : list T) (map2 : list (string * list T)),
    entries (fold_left
               (fun map2 item => addToMapOfItems map2 (getLongName item name) item)
               its map2)
      ≡ₚ entries map2 ++ ((fun item => (getLongName item name, item)) <$> its)).
  { intros name its. induction its as [|x its IH]; intros map2;
      cbn [fold_left fmap list_fmap]; [rewrite app_nil_r; reflexivity|].
    rewrite IH, entries_add. cbn [app]. apply Permutation_middle. }
  assert (H : forall map2 : list (string * list T),
    entries (fold_left
      (fun map2 entry =>
         let '(name, items) := entry in
         if (1 <? Z.of_nat (length items)) || String.eqb name "" then
           fold_left
             (fun map2 item => addToMapOfItems map2 (getLongName item name) item)
             items map2
         else
           match items with
           | item :: _ => addToMapOfItems map2 name item
           | [] => map2
           end) nameToItems map2)
      ≡ₚ entries map2 ++ (nameToItems ≫= regrouped getLongName)).
  { induction nameToItems as [|[name its] ntoi IH]; intros map2;
      cbn [fold_left]; [rewrite app_nil_r; reflexivity|].
    rewrite IH, bind_cons. cbn [regrouped].
    destruct ((1 <? Z.of_nat (length its)) || String.eqb name "").
    - rewrite Hinner, <- app_assoc. reflexivity.
    - destruct its as [|it its]; [reflexivity|].
      rewrite entries_add. cbn [app]. apply Permutation_middle. }
  apply (H []).
Qed.

(** the second map holds every item once, under its candidate name *)
Lemma nameToItems2_spec (items : list T) :
  entries (regroup getLongName (groupByShortName getShortName items))
    ≡ₚ (fun x => (candidateName getShortName getLongName items x, x)) <$> items.
Proof.
  rewrite regroup_spec.
  destruct (groupByShortName_spec items) as [Hp _].
  assert (Hloc : forall ntoi : list (string * list T),
    (forall k arr, (k, arr) ∈ ntoi ->
       (forall x, x ∈ arr -> getShortName x = k)
       /\ length arr = occurrences getShortName items k) ->
    ntoi ≫= regrouped getLongName
    = (fun e => (candidateName getShortName getLongName items e.2, e.2))
        <$> entries ntoi).
  { induction ntoi as [|[k arr] ntoi IH]; intros Hb; [reflexivity|].
    rewrite bind_cons, entries_cons, fmap_app, IH
      by (intros k0 a0 H0; apply Hb; right; exact H0).
    f_equal. destruct (Hb k arr) as [Hk Hlen]; [left|].
    cbn [regrouped]. rewrite <- list_fmap_compose.
    assert (Hcand : forall x, x ∈ arr ->
              candidateName getShortName getLongName items x
              = if (1 <? Z.of_nat (length arr)) || String.eqb k ""
                then getLongName x k else k).
    { intros x Hx. unfold candidateName. rewrite (Hk x Hx), Hlen. reflexivity. }
    destruct ((1 <? Z.of_nat (length arr)) || String.eqb k "") eqn:E.
    - apply list_fmap_ext. intros i x Hx. cbn.
      rewrite Hcand by (eapply list_elem_of_lookup_2, Hx). reflexivity.
    - destruct arr as [|x [|y arr]].
      + reflexivity.
      + cbn. rewrite Hcand by left. reflexivity.
      + apply orb_false_iff in E as [E _]. apply Z.ltb_ge in E.
        cbn [length] in E. lia. }
  rewrite Hloc by (intros k arr; apply bucket_of_group).
  rewrite Hp, <- list_fmap_compose. reflexivity.
Qed.

Lemma assignNumbered_unnamed (map2 : list (string * list T)) name
    (its : list T) : forall acc,
  unnamedItems (snd (fold_left (assignNumbered map2 name) its acc))
  = unnamedItems (snd acc).
Proof.
  induction its as [|x its IH]; intros [i st]; [reflexivity|].
  cbn [fold_left]. rewrite IH. reflexivity.
Qed.

Lemma resolveBucket_unnamed (map2 : list (string * list T)) st k arr :
  unnamedItems (resolveBucket comparator map2 st (k, arr))
  = unnamedItems st ++ (filter (fun e => e.1 = "") (pair k <$> arr)).*2.
Proof.
  assert (Hnone : k <> "" ->
            (filter (fun e : string * T => e.1 = "") (pair k <$> arr)).*2 = []).
  { intros Hne. induction arr as [|x arr IH]; [reflexivity|].
    cbn [fmap list_fmap]. rewrite filter_cons_False by (cbn; congruence).
    exact IH. }
  cbn [resolveBucket]. destruct (String.eqb_spec k "") as [->|Hne].
  - cbn [unnamedItems]. f_equal. clear Hnone.
    induction arr as [|x arr IH]; [reflexivity|].
    cbn [fmap list_fmap]. rewrite filter_cons_True by reflexivity.
    cbn [fmap list_fmap snd]. f_equal. exact IH.
  - rewrite (Hnone Hne), app_nil_r.
    destruct arr as [|x [|y arr]];
      try (rewrite assignNumbered_unnamed; reflexivity).
    destruct (negb (has (usedIds st) k)); [reflexivity|].
    rewrite assignNumbered_unnamed. reflexivity.
Qed.

(** The items that [assignNames] returns are those whose candidate name is
    empty, sorted. *)
Lemma assignNames_unnamed (items : list T) (usedIds0 : gset string) :
  exists unnamed,
    (assignNames getShortName getLongName comparator items usedIds0).2
      = JS.sort comparator unnamed
    /\ unnamed ≡ₚ
         filter (fun x => candidateName getShortName getLongName items x = "") items.
Proof.
  unfold assignNames. cbn [snd]. eexists. split; [reflexivity|].
  set (map2 := regroup getLongName (groupByShortName getShortName items)).
  assert (H : forall (l : list (string * list T)) st,
    unnamedItems (fold_left (resolveBucket comparator map2) l st)
    = unnamedItems st ++ (filter (fun e => e.1 = "") (entries l)).*2).
  { induction l as [|[k arr] l IH]; intros st; cbn [fold_left].
    - rewrite app_nil_r. reflexivity.
    - rewrite IH, resolveBucket_unnamed, entries_cons, filter_app, fmap_app,
        app_assoc. reflexivity. }
  rewrite H. cbn [unnamedItems app]. unfold map2.
  rewrite nameToItems2_spec.
  set (c := candidateName getShortName getLongName items). clearbody c.
  assert (E : (filter (fun e : string * T => e.1 = "") ((fun x => (c x, x)) <$> items)).*2
              = filter (fun x => c x = "") items).
  { clear. induction items as [|x items IH]; [reflexivity|].
    cbn [fmap list_fmap]. rewrite !filter_cons. cbn [fst].
    destruct (decide (c x = "")); cbn [fmap list_fmap snd]; rewrite IH; reflexivity. }
  rewrite E. reflexivity.
Qed.
End GroupingFacts.

(** ** [assignDeterministicIds] *)

Section DeterministicIdsFacts.
Variable md4 : string -> string.
Context {T : Type}.
Variable getName : T -> string.
Variable comparator : T -> T -> Z.

Lemma probe_free fuel ident len usedIds : forall i id,
  probe md4 fuel ident len usedIds i = Some id ->
  JSNumber.toString id ∉ usedIds.
Proof.
  induction fuel as [|fuel IH]; intros i id H; cbn [probe] in H; [discriminate H|].
  destruct (has usedIds _) eqn:E; [apply (IH _ _ H)|].
  injection H as <-. unfold has in E. apply bool_decide_eq_false in E. exact E.
Qed.

(** One completed pass: [assignId] is called once for each item, in the
    order of the list; the ids are pairwise distinct, none has its string
    form in the set of used ids as it was before the pass, and the pass
    adds exactly their string forms to the set. *)
Lemma assignEach_spec fuel len items : forall usedIds calls usedIds',
  assignEach md4 getName fuel len items usedIds = Some (calls, usedIds') ->
  calls.*1 = items
  /\ NoDup calls.*2
  /\ (forall id, id ∈ calls.*2 -> JSNumber.toString id ∉ usedIds)
  /\ usedIds' = list_to_set (JSNumber.toString <$> calls.*2) ∪ usedIds.
Proof.
  induction items as [|item items IH]; intros usedIds calls usedIds' H;
    cbn [assignEach] in H.
  - injection H as <- <-. cbn. repeat split; [constructor | |].
    + intros id Hid. inversion Hid.
    + symmetry. apply (left_id_L ∅ (∪)).
  - destruct (probe md4 fuel (getName item) len usedIds 0) as [id|] eqn:Ep;
      [|discriminate H]. cbn in H.
    destruct (assignEach md4 getName fuel len items _) as [[calls0 used0]|] eqn:Er;
      [|discriminate H]. cbn in H. injection H as <- <-.
    apply probe_free in Ep.
    destruct (IH _ _ _ Er) as (H1 & H2 & H3 & H4).
    cbn [fmap list_fmap fst snd]. repeat split.
    + cbn. f_equal. exact H1.
    + cbn. apply NoDup_cons. split; [|exact H2].
      intros Hin. apply H3 in Hin. apply Hin.
      apply elem_of_union. left. apply elem_of_singleton. reflexivity.
    + intros id' Hid'. cbn in Hid'. apply elem_of_cons in Hid' as [->|Hid'];
        [exact Ep|]. apply H3 in Hid'.
      intros Hu. apply Hid', elem_of_union. right. exact Hu.
    + rewrite H4. cbn. apply set_eq. intros x.
      rewrite !elem_of_union. tauto.
Qed.

Lemma assignDeterministicIds_unique fuel items maxLength usedIds calls usedIds' :
  assignDeterministicIds md4 getName comparator fuel items maxLength usedIds
    = Some (calls, usedIds') ->
  calls.*1 = JS.sort comparator items
  /\ NoDup calls.*2
  /\ (forall id, id ∈ calls.*2 -> JSNumber.toString id ∉ usedIds).
Proof.
  unfold assignDeterministicIds. intros H.
  destruct (assignEach_spec _ _ _ _ _ _ H) as (H1 & H2 & H3 & _). auto.
Qed.

(** a probe that found an id finds the same id with more fuel *)
Lemma probe_more_fuel fuel fuel' ident len usedIds : forall i id,
  (fuel <= fuel')%nat ->
  probe md4 fuel ident len usedIds i = Some id ->
  probe md4 fuel' ident len usedIds i = Some id.
Proof.
  revert fuel'. induction fuel as [|fuel IH]; intros fuel' i id Hle H;
    [discriminate H|].
  destruct fuel' as [|fuel']; [lia|]. cbn [probe] in *.
  destruct (has usedIds _); [|exact H]. apply (IH fuel'); [lia | exact H].
Qed.

(** a completed pass is the same with more fuel: its result does not
    depend on the bound on the number of probes *)
Lemma assignEach_more_fuel fuel fuel' len items : forall usedIds result,
  (fuel <= fuel')%nat ->
  assignEach md4 getName fuel len items usedIds = Some result ->
  assignEach md4 getName fuel' len items usedIds = Some result.
Proof.
  induction items as [|item items IH]; intros usedIds result Hle H;
    cbn [assignEach] in *; [exact H|].
  destruct (probe md4 fuel (getName item) len usedIds 0) as [id|] eqn:Ep;
    [|discriminate H].
  rewrite (probe_more_fuel _ _ _ _ _ _ _ Hle Ep). cbn in *.
  destruct (assignEach md4 getName fuel len items _) as [r|] eqn:Er;
    [|discriminate H].
  rewrite (IH _ _ Hle Er). exact H.
Qed.

(** The order in which the input yields the items does not matter when
    the comparator is a total order on them: both runs probe the same
    sorted list. *)
Lemma assignDeterministicIds_perm fuel items items' maxLength usedIds :
  totalOrderOn comparator items -> Permutation items items' ->
  assignDeterministicIds md4 getName comparator fuel items' maxLength usedIds
  = assignDeterministicIds md4 getName comparator fuel items maxLength usedIds.
Proof.
  intros Hto Hp. unfold assignDeterministicIds.
  rewrite <- (sort_perm_eq comparator items items' Hto Hp). reflexivity.
Qed.
End DeterministicIdsFacts.

(** ** The order in which the input yields the items *)

Section OrderFacts.
Variable md4 : string -> string.
Context {T : Type}.
Variable getShortName : T -> string.
Variable getLongName : T -> string -> string.
Variable getName : T -> string.
Variable comparator : T -> T -> Z.

Lemma totalOrderOn_subset (l l' : list T) :
  (forall x, x ∈ l' -> x ∈ l) ->
  totalOrderOn comparator l -> totalOrderOn comparator l'.
Proof.
  intros Hsub [H1 H2 H3].
  split; intros; [apply H1 | apply (H2 a b c) | apply H3]; auto.
Qed.

Lemma occurrences_perm (items items' : list T) name :
  Permutation items items' ->
  occurrences getShortName items' name = occurrences getShortName items name.
Proof. intros Hp. unfold occurrences. rewrite Hp. reflexivity. Qed.

Lemma candidateName_perm (items items' : list T) x :
  Permutation items items' ->
  candidateName getShortName getLongName items' x
  = candidateName getShortName getLongName items x.
Proof.
  intros Hp. unfold candidateName.
  rewrite (occurrences_perm items items' _ Hp). reflexivity.
Qed.

Lemma assignNames_unnamed_perm (items items' : list T) (usedIds0 : gset string) :
  totalOrderOn comparator items -> Permutation items items' ->
  (assignNames getShortName getLongName comparator items' usedIds0).2
  = (assignNames getShortName getLongName comparator items usedIds0).2.
Proof.
  intros Hto Hp.
  destruct (assignNames_unnamed getShortName getLongName comparator items usedIds0)
    as (u & -> & Hu).
  destruct (assignNames_unnamed getShortName getLongName comparator items' usedIds0)
    as (u' & -> & Hu').
  symmetry. apply sort_perm_eq.
  - apply (totalOrderOn_subset items); [|exact Hto].
    intros x Hx. rewrite Hu in Hx. apply list_elem_of_filter in Hx as [_ Hx]. exact Hx.
  - rewrite Hu, Hu'.
    rewrite (list_filter_iff
               (fun x => candidateName getShortName getLongName items' x = "")
               (fun x => candidateName getShortName getLongName items x = ""))
      by (intros x; rewrite (candidateName_perm items items' x Hp); reflexivity).
    rewrite Hp. reflexivity.
Qed.

(** C3, as the code has it. For a comparator that is a total order on the
    items, a permutation of the input changes neither the outcome of
    [assignDeterministicIds] (the calls of [assignId] and the final set of
    used ids, or the failure to complete within the given number of
    probes) nor the list of unnamed items that [assignNames] returns.
    The names that [assignNames] assigns are a function of the sequence
    in which the items are yielded. *)
Theorem assignment_order_independence (items items' : list T) (fuel : nat)
    (maxLength : option Z) (usedIds0 : gset string) :
  totalOrderOn comparator items -> Permutation items items' ->
  assignDeterministicIds md4 getName comparator fuel items' maxLength usedIds0
  = assignDeterministicIds md4 getName comparator fuel items maxLength usedIds0
  /\ (assignNames getShortName getLongName comparator items' usedIds0).2
     = (assignNames getShortName getLongName comparator items usedIds0).2.
Proof.
  intros Hto Hp. split.
  - apply assignDeterministicIds_perm; assumption.
  - apply assignNames_unnamed_perm; assumption.
Qed.
End OrderFacts.

Lemma compareZ_totalOrderOn (l : list Z) : totalOrderOn Samples.compareZ l.
Proof.
  split; unfold Samples.compareZ; intros a b; [intros _ _ | intros c _ _ _ | intros _ _].
  - destruct (Z.compare_spec a b), (Z.compare_spec b a); lia.
  - destruct (Z.compare_spec a b), (Z.compare_spec b c), (Z.compare_spec a c); lia.
  - destruct (Z.compare_spec a b), (Z.compare_spec b a); lia.
Qed.

Lemma assignment_order_independence_witness :
  assignDeterministicIds Samples.toyDigest Samples.moduleName Samples.compareZ
    10 [1; 2; 3] None {["5"]}
  = assignDeterministicIds Samples.toyDigest Samples.moduleName Samples.compareZ
      10 [3; 1; 2] None {["5"]}.
Proof.
  apply (assignment_order_independence Samples.toyDigest
           Samples.moduleName (fun x _ => Samples.moduleName x)
           Samples.moduleName Samples.compareZ [3; 1; 2] [1; 2; 3]).
  - apply compareZ_totalOrderOn.
  - exact (perm_trans (perm_swap 1 3 [2]) (perm_skip 1 (perm_swap 2 3 []))).
Defined.

(** ** The ascending id assigners *)

Section AscendingFacts.

Lemma skips_used usedIds :
  skips (fun n => JS.numToString n ∉ usedIds) (skipUsedIds usedIds).
Proof.
  intros n. destruct (skipUsedIds_spec usedIds n) as (H1 & H2 & _). auto.
Qed.

Lemma skips_none (usedIds : gset string) :
  size usedIds = 0%nat ->
  skips (fun n => JS.numToString n ∉ usedIds) (fun nextId => nextId).
Proof.
  intros Hsize n. split; [lia|]. apply size_empty_inv in Hsize.
  intros H. apply Hsize in H. apply not_elem_of_empty in H. exact H.
Qed.

Lemma assignModulesFrom_spec (P : Z -> Prop) skip :
  skips P skip ->
  forall ms nextId (tbl : gmap string Id),
    let tbl' := assignModulesFrom skip ms nextId tbl in
    (forall k v, tbl !! k = Some v -> tbl' !! k = Some v)
    /\ (forall m, m ∈ ms -> is_Some (tbl' !! identifier m))
    /\ (forall k v, tbl !! k = None -> tbl' !! k = Some v ->
          exists n, v = IdNumber n /\ nextId <= n /\ P n)
    /\ (forall k1 k2 v, k1 <> k2 -> tbl !! k1 = None -> tbl !! k2 = None ->
          tbl' !! k1 = Some v -> tbl' !! k2 = Some v -> False)
    /\ (forall m, tbl !! identifier m = None -> identifier m ∉ identifier <$> ms ->
          tbl' !! identifier m = None).
Proof.
  intros Hskip ms. induction ms as [|m ms IH]; intros nextId tbl; cbv zeta.
  - cbn [assignModulesFrom]. repeat split.
    + auto.
    + intros m Hm. inversion Hm.
    + intros k v H1 H2. congruence.
    + intros k1 k2 v _ H1 _ H2. congruence.
    + auto.
  - cbn [assignModulesFrom]. unfold getModuleId, setModuleId.
    destruct (tbl !! identifier m) as [v0|] eqn:Em.
    + destruct (IH nextId tbl) as (H1 & H2 & H3 & H4 & H5).
      repeat split; [exact H1 | | exact H3 | exact H4 |].
      * intros m' Hm'. apply elem_of_cons in Hm' as [->|Hm']; [|apply H2, Hm'].
        exists v0. apply H1, Em.
      * intros m' Hn Hnot. apply H5; [exact Hn|].
        intros Hin. apply Hnot. cbn. right. exact Hin.
    + destruct (Hskip nextId) as [Hge HP].
      set (n := skip nextId) in *.
      destruct (IH (n + 1) (<[identifier m := IdNumber n]> tbl))
        as (H1 & H2 & H3 & H4 & H5).
      assert (Hm : assignModulesFrom skip ms (n + 1)
                     (<[identifier m := IdNumber n]> tbl) !! identifier m
                   = Some (IdNumber n))
        by (apply H1, lookup_insert_eq).
      assert (Hnew : forall k v, k <> identifier m -> tbl !! k = None ->
                assignModulesFrom skip ms (n + 1)
                  (<[identifier m := IdNumber n]> tbl) !! k = Some v ->
                exists n', v = IdNumber n' /\ n + 1 <= n' /\ P n').
      { intros k v Hk Hnone. apply H3. rewrite lookup_insert_ne by congruence.
        exact Hnone. }
      repeat split.
      * intros k v Hk. apply H1. rewrite lookup_insert_ne by congruence. exact Hk.
      * intros m' Hm'. apply elem_of_cons in Hm' as [->|Hm']; [|apply H2, Hm'].
        exists (IdNumber n). exact Hm.
      * intros k v Hnone Hk.
        destruct (decide (k = identifier m)) as [->|Hne].
        -- exists n. split; [congruence | auto].
        -- destruct (Hnew k v Hne Hnone Hk) as (n' & -> & Hn' & HP').
           exists n'. split; [reflexivity|]. split; [lia | exact HP'].
      * intros k1 k2 v Hne Hn1 Hn2 Hk1 Hk2.
        destruct (decide (k1 = identifier m)) as [->|Hne1];
          destruct (decide (k2 = identifier m)) as [->|Hne2].
        -- congruence.
        -- destruct (Hnew k2 v Hne2 Hn2 Hk2) as (n' & -> & Hn' & _).
           rewrite Hm in Hk1. injection Hk1 as E. lia.
        -- destruct (Hnew k1 v Hne1 Hn1 Hk1) as (n' & -> & Hn' & _).
           rewrite Hm in Hk2. injection Hk2 as E. lia.
        -- apply (H4 k1 k2 v); try assumption;
             rewrite lookup_insert_ne by congruence; assumption.
      * intros m' Hn Hnot.
        assert (Hne : identifier m <> identifier m').
        { intros E. apply Hnot. cbn. rewrite E. left. }
        apply H5; [rewrite lookup_insert_ne by exact Hne; exact Hn|].
        intros Hin. apply Hnot. cbn. right. exact Hin.
Qed.




End AscendingFacts.




(** ** SystemLibraryPlugin.parseOptions *)

Section ParseOptionsFacts.
Import SystemLibraryPlugin.
Variable Compilation : Type.

Lemma declared_truthy_iff (v : value) :
  isDeclaredName v = true ->
  (toBoolean v = true /\ typeof v <> "string") <-> presentNonString v.
Proof.
  unfold presentNonString.
  destruct v; cbn; intros Hd; try discriminate Hd;
    split; intros [H1 H2]; split; congruence.
Qed.

(** C9.  For a name of a declared kind (absent, a string, an array of
    strings, an object) [parseOptions] throws, with the message
    "System.js library name must be a simple string or unset", exactly
    when the name is present and is not a string, and returns the options
    with the name as it is exactly when the name is absent or is a
    string.  The test of the code is that the name is truthy and is not a
    string; for whatever name, it decides between the two outcomes.  In
    every case the state of the compilation is left as it was. *)
Theorem parseOptions_throws_iff (library : LibraryOptions) (st : Compilation) :
  let name := libraryName library in
  let run := parseOptions Compilation library st in
  (fst run = Throw nameError <-> toBoolean name = true /\ typeof name <> "string")
  /\ (fst run = Return {| parsedName := name |}
      <-> ~ (toBoolean name = true /\ typeof name <> "string"))
  /\ (isDeclaredName name = true ->
      (fst run = Throw nameError <-> presentNonString name)
      /\ (fst run = Return {| parsedName := name |} <-> ~ presentNonString name))
  /\ snd run = st.
Proof.
  cbv zeta. unfold parseOptions, nameError.
  assert (Hcases :
    (toBoolean (libraryName library) = true
     /\ typeof (libraryName library) <> "string"
     /\ toBoolean (libraryName library)
        && negb (String.eqb (typeof (libraryName library)) "string") = true)
    \/ (~ (toBoolean (libraryName library) = true
           /\ typeof (libraryName library) <> "string")
        /\ toBoolean (libraryName library)
           && negb (String.eqb (typeof (libraryName library)) "string") = false)).
  { destruct (toBoolean (libraryName library)); cbn [andb].
    - destruct (String.eqb_spec (typeof (libraryName library)) "string") as [E|E];
        cbn [negb]; [right | left]; intuition congruence.
    - right. intuition congruence. }
  assert (Hgen :
    (fst (parseOptions Compilation library st) = Throw nameError
     <-> toBoolean (libraryName library) = true
         /\ typeof (libraryName library) <> "string")
    /\ (fst (parseOptions Compilation library st)
          = Return {| parsedName := libraryName library |}
        <-> ~ (toBoolean (libraryName library) = true
               /\ typeof (libraryName library) <> "string"))
    /\ snd (parseOptions Compilation library st) = st).
  { unfold parseOptions, nameError.
    destruct Hcases as [(H1 & H2 & ->)|(H & ->)]; cbn [throw ret fst snd];
      (split; [|split; [|reflexivity]]); split; intros; auto; try discriminate;
      try tauto. }
  destruct Hgen as (Ht & Hr & Hs).
  split; [exact Ht|]. split; [exact Hr|]. split; [|exact Hs].
  intros Hd. rewrite <- (declared_truthy_iff _ Hd). split; assumption.
Qed.

End ParseOptionsFacts.

Lemma parseOptions_throws_iff_witness :
  SystemLibraryPlugin.isDeclaredName
    (SystemLibraryPlugin.VArray
       [SystemLibraryPlugin.VString "a"; SystemLibraryPlugin.VString "b"]) = true
  /\ fst (SystemLibraryPlugin.parseOptions unit
            (Samples.libraryNamed
               (SystemLibraryPlugin.VArray
                  [SystemLibraryPlugin.VString "a"; SystemLibraryPlugin.VString "b"]))
            tt)
     = SystemLibraryPlugin.Throw SystemLibraryPlugin.nameError.
Proof.
  split; [reflexivity|].
  apply (proj1 (proj2 (proj2 (parseOptions_throws_iff unit
           (Samples.libraryNamed
              (SystemLibraryPlugin.VArray
                 [SystemLibraryPlugin.VString "a"; SystemLibraryPlugin.VString "b"]))
           tt))));
    [reflexivity|].
  split; cbn; congruence.
Defined.
(** * Further properties of the id helpers *)

(** ** [getHash] and [getHashNumber] at the edges *)

Section MoreHashFacts.
Import CharClass HashSpec JSNumber.
Variable md4 : string -> string.

Lemma prefix_substring n (s : string) : String.prefix (substring 0 n s) s = true.
Proof.
  revert s. induction n as [|n IH]; intros [|c s]; cbn [substring String.prefix];
    try reflexivity.
  destruct (ascii_dec c c) as [_|Hne]; [apply IH | contradiction].
Qed.

Lemma substring_all n (s : string) :
  (String.length s <= n)%nat -> substring 0 n s = s.
Proof.
  revert s. induction n as [|n IH]; intros [|c s] H; cbn [substring];
    try reflexivity; cbn [String.length] in H; [lia|].
  rewrite IH by lia. reflexivity.
Qed.

(** [getHash] returns the first [len] characters of the hex digest: a
    prefix of the digest with [min(len, digest.length)] characters, hex
    digits when the digest is made of hex digits; the empty string for
    [len <= 0] and the whole digest when [len] is not below its length. *)
Theorem getHash_prefix (str : string) (len : Z) :
  String.prefix (getHash md4 str len) (md4 str) = true
  /\ String.length (getHash md4 str len)
     = Nat.min (Z.to_nat len) (String.length (md4 str))
  /\ (isHexDigest (md4 str) = true -> isHexDigest (getHash md4 str len) = true)
  /\ (len <= 0 -> getHash md4 str len = "")
  /\ (Z.of_nat (String.length (md4 str)) <= len -> getHash md4 str len = md4 str).
Proof.
  unfold getHash, JS.substr0. split; [apply prefix_substring|].
  split; [apply length_substring_0|].
  split; [apply allChars_substring|]. split.
  - intros H. replace (Z.to_nat len) with 0%nat by lia.
    destruct (md4 str); reflexivity.
  - intros H. apply substring_all. lia.
Qed.

(** When the digest holds fewer decimal digits than [maxDigits], [k] of
    them missing, and [maxDigits] is at most 15, the result of
    [getHashNumber] is padded: it is an integer of at least [10^(k-1)],
    so never zero, and its last [k] decimal digits are a one followed by
    zeros. *)
Theorem getHashNumber_padded (str : string) (maxDigits : Z) :
  isHexDigest (md4 str) = true ->
  Z.of_nat (length (decimalDigits (md4 str))) < maxDigits ->
  maxDigits <= 15 ->
  let k := maxDigits - Z.of_nat (length (decimalDigits (md4 str))) in
  exists n,
    getHashNumber md4 str maxDigits = Int n
    /\ 10 ^ (k - 1) <= n
    /\ n mod 10 ^ k = 10 ^ (k - 1).
Proof.
  intros Hhex Hk Hmax k.
  exists (hashToBoundedInt (md4 str) maxDigits).
  split; [apply getHashNumber_exact; [exact Hhex | lia]|].
  unfold hashToBoundedInt. cbv zeta.
  fold k. destruct (k <=? 0) eqn:E; [apply Z.leb_le in E; lia|].
  pose proof (decimalDigits_range (md4 str)) as Hds.
  pose proof (accumulate_bound _ 0 0 Hds ltac:(lia) ltac:(simpl; lia)) as [Ha _].
  set (a := accumulate 0 (decimalDigits (md4 str))) in *.
  assert (Hp : 0 < 10 ^ (k - 1)) by (apply Z.pow_pos_nonneg; lia).
  assert (Hpk : 10 ^ k = 10 * 10 ^ (k - 1)).
  { replace k with (1 + (k - 1)) at 1 by lia.
    rewrite Z.pow_add_r by lia. reflexivity. }
  split; [nia|].
  replace ((a * 10 + 1) * 10 ^ (k - 1)) with (10 ^ (k - 1) + a * 10 ^ k)
    by (rewrite Hpk; ring).
  rewrite Z.mod_add by lia. apply Z.mod_small. lia.
Qed.

Lemma getHashNumber_loop_first digest : forall len d ds,
  isHexDigest digest = true -> len <= 1 ->
  decimalDigits digest = d :: ds ->
  getHashNumber_loop digest (Int 0) len = Int d.
Proof.
  induction digest as [|c s IH]; intros len d ds Hhex Hlen Hd;
    cbn [getHashNumber_loop decimalDigits] in *; [discriminate Hd|].
  cbv zeta. cbn [isHexDigest allChars] in Hhex.
  apply andb_true_iff in Hhex as [Hc Hs].
  rewrite (lowerHex_digit_iff c Hc).
  destruct (isDecimalDigit c) eqn:Ed.
  - injection Hd as <- _.
    pose proof (isDecimalDigit_range c Ed) as Hr.
    pose proof (roundInteger_nonpos (len - 1) ltac:(lia)) as Hlen'.
    destruct (roundInteger (len - 1) <? 1) eqn:E;
      [|apply Z.ltb_ge in E; lia].
    change (mul (Int 0) (Int 10)) with (Int 0).
    rewrite add_Int by (rewrite pow_2_53; lia). reflexivity.
  - apply (IH _ _ ds); assumption.
Qed.

(** A width of 1 or less, zero and negative widths included, gives the
    first decimal digit of the digest when there is one: the loop returns
    after the first digit it reads. *)
Theorem getHashNumber_narrow (str : string) (maxDigits d : Z) (ds : list Z) :
  isHexDigest (md4 str) = true -> maxDigits <= 1 ->
  decimalDigits (md4 str) = d :: ds ->
  getHashNumber md4 str maxDigits = Int d /\ 0 <= d <= 9.
Proof.
  intros Hhex Hlen Hd. unfold getHashNumber.
  rewrite (getHashNumber_loop_first _ maxDigits d ds Hhex Hlen Hd).
  split; [reflexivity|].
  pose proof (decimalDigits_range (md4 str)) as Hr. rewrite Hd in Hr.
  inversion Hr; assumption.
Qed.
End MoreHashFacts.

Lemma getHashNumber_padded_witness :
  exists n,
    getHashNumber (fun _ => "fa1cfdbb2ee3caaa1fbdcafecaabbcdd"%string) "a" 10
    = JSNumber.Int n
    /\ 10 ^ (6 - 1) <= n
    /\ n mod 10 ^ 6 = 10 ^ (6 - 1).
Proof.
  apply (getHashNumber_padded (fun _ => "fa1cfdbb2ee3caaa1fbdcafecaabbcdd"%string)
           "a" 10); [reflexivity | vm_compute; reflexivity | lia].
Defined.

Lemma getHashNumber_narrow_witness :
  exists d, getHashNumber Samples.toyDigest "a" 0 = JSNumber.Int d /\ 0 <= d <= 9.
Proof.
  eexists.
  apply (getHashNumber_narrow Samples.toyDigest "a" 0 _
           (tl (HashSpec.decimalDigits (Samples.toyDigest "a"))));
    [reflexivity | lia | vm_compute; reflexivity].
Defined.
(** ** [requestToId], [avoidNumber] and the module names *)

Section MoreNameFacts.
Import CharClass JSNumber.

Lemma strip_not_dot c (s : string) :
  c <> "."%char -> stripRelativePrefix (String c s) = String c s.
Proof.
  intros H. destruct c as [[] [] [] [] [] [] [] []]; try reflexivity; congruence.
Qed.

(** the first replace removes nothing, or one segment "./" or "../" and
    then goes on *)
Lemma strip_cases (s : string) :
  stripRelativePrefix s = s
  \/ (exists t, s = String "." (String "/" t)
                /\ stripRelativePrefix s = stripRelativePrefix t)
  \/ (exists t, s = String "." (String "." (String "/" t))
                /\ stripRelativePrefix s = stripRelativePrefix t).
Proof.
  destruct s as [|c0 s]; [left; reflexivity|].
  destruct (ascii_dec c0 ".") as [->|H0]; [|left; apply strip_not_dot, H0].
  destruct s as [|c1 s]; [left; reflexivity|].
  destruct (ascii_dec c1 "/") as [->|H1];
    [right; left; exists s; split; reflexivity|].
  destruct (ascii_dec c1 ".") as [->|H1'].
  - destruct s as [|c2 s]; [left; reflexivity|].
    destruct (ascii_dec c2 "/") as [->|H2];
      [right; right; exists s; split; reflexivity|].
    left. destruct c2 as [[] [] [] [] [] [] [] []]; try reflexivity; congruence.
  - left. destruct c1 as [[] [] [] [] [] [] [] []]; try reflexivity; congruence.
Qed.

Lemma length_stripRelativePrefix (s : string) :
  (String.length (stripRelativePrefix s) <= String.length s)%nat.
Proof.
  assert (H : forall n (t : string), (String.length t <= n)%nat ->
            (String.length (stripRelativePrefix t) <= String.length t)%nat).
  { induction n as [|n IH]; intros t Hn;
      destruct (strip_cases t) as [E|[(u & -> & E)|(u & -> & E)]];
      rewrite E; cbn [String.length] in *; try lia.
    - specialize (IH u). lia.
    - specialize (IH u). lia. }
  apply (H (String.length s)). lia.
Qed.

Lemma length_replaceRuns (s : string) : forall atStart inRun,
  (String.length (replaceRuns atStart inRun s) <= String.length s)%nat.
Proof.
  induction s as [|c s IH]; intros atStart inRun; [cbn; lia|].
  cbn [replaceRuns]. destruct (matchesGroup atStart c).
  - destruct inRun; cbn [String.length].
    + specialize (IH false true). lia.
    + specialize (IH false true). lia.
  - cbn [String.length]. specialize (IH false false). lia.
Qed.

Lemma idChar_not_dot c : isIdChar c = true -> c <> "."%char.
Proof. intros H ->. discriminate H. Qed.

(** the second replace leaves a string of class characters alone, unless
    it starts with a hyphen *)
Lemma replaceRuns_clean (s : string) : forall atStart inRun,
  allChars isIdChar s = true -> (atStart = true -> startsWith "-" s = false) ->
  replaceRuns atStart inRun s = s.
Proof.
  induction s as [|c s IH]; intros atStart inRun Hall Hstart; [reflexivity|].
  cbn [allChars] in Hall. apply andb_true_iff in Hall as [Hc Hs].
  cbn [replaceRuns]. unfold matchesGroup. rewrite Hc. cbn [negb].
  rewrite orb_false_r.
  assert (Hg : atStart && (Ascii.eqb c "." || Ascii.eqb c "-") = false).
  { destruct atStart; [|reflexivity]. cbn [andb].
    specialize (Hstart eq_refl). cbn [startsWith] in Hstart. rewrite Hstart.
    destruct (Ascii.eqb_spec c ".") as [->|_]; [discriminate Hc | reflexivity]. }
  rewrite Hg. f_equal. apply IH; [exact Hs | discriminate].
Qed.

Lemma requestToId_start (s : string) :
  startsWith "-" (requestToId s) = false /\ startsWith "." (requestToId s) = false.
Proof.
  unfold requestToId. destruct (stripRelativePrefix s) as [|c t]; [split; reflexivity|].
  cbn [replaceRuns]. destruct (matchesGroup true c) eqn:E; [split; reflexivity|].
  unfold matchesGroup in E. cbn [andb] in E.
  apply orb_false_iff in E as [E _]. apply orb_false_iff in E as [E1 E2].
  cbn [startsWith]. rewrite E1, E2. split; reflexivity.
Qed.

Lemma requestToId_clean (s : string) :
  allChars isIdChar s = true -> startsWith "-" s = false -> requestToId s = s.
Proof.
  intros Hall Hstart. unfold requestToId.
  assert (E : stripRelativePrefix s = s).
  { destruct s as [|c t]; [reflexivity|]. apply strip_not_dot.
    cbn [allChars] in Hall. apply andb_true_iff in Hall as [Hc _].
    apply idChar_not_dot, Hc. }
  rewrite E. apply replaceRuns_clean; [exact Hall | intros _; exact Hstart].
Qed.

(** [requestToId] changes nothing in its own results: applied twice it
    gives what it gives once.  Its result is never longer than the
    request and never starts with a dot or a hyphen. *)
Theorem requestToId_idempotent (s : string) :
  requestToId (requestToId s) = requestToId s
  /\ (String.length (requestToId s) <= String.length s)%nat
  /\ startsWith "-" (requestToId s) = false
  /\ startsWith "." (requestToId s) = false.
Proof.
  destruct (requestToId_start s) as [H1 H2]. split; [|split; [|split; assumption]].
  - apply requestToId_clean; [apply replaceRuns_idChars | exact H1].
  - unfold requestToId.
    pose proof (length_replaceRuns (stripRelativePrefix s) true false).
    pose proof (length_stripRelativePrefix s). lia.
Qed.

(** The requests that [requestToId] returns unchanged are those made of
    letters, digits, underscores and hyphens only that do not start with a
    hyphen. *)
Theorem requestToId_fixed_iff (s : string) :
  requestToId s = s
  <-> allChars isIdChar s = true /\ startsWith "-" s = false.
Proof.
  split.
  - intros E. rewrite <- E. split; [apply replaceRuns_idChars|].
    apply requestToId_start.
  - intros [H1 H2]. apply requestToId_clean; assumption.
Qed.







End MoreNameFacts.


(** ** [addToMapOfItems] and the passes of [assignNames] *)

Section MoreMapFacts.
Context {T : Type}.

(** [addToMapOfItems] appends the value to the array of its key, which
    it creates behind the other entries when the map has none; the arrays
    of the other keys and the order of the keys already present are as
    before. *)
Theorem addToMapOfItems_get (map : list (string * list T)) (key : string)
    (value : T) :
  mapGet (addToMapOfItems map key value) key
    = Some (default [] (mapGet map key) ++ [value])
  /\ mapHas (addToMapOfItems map key value) key = true
  /\ (forall key', key' <> key ->
        mapGet (addToMapOfItems map key value) key' = mapGet map key'
        /\ mapHas (addToMapOfItems map key value) key' = mapHas map key')
  /\ (addToMapOfItems map key value).*1
     = (if mapHas map key then map.*1 else map.*1 ++ [key]).
Proof.
  induction map as [|[k arr] map IH]; cbn [addToMapOfItems mapGet mapHas existsb fst].
  - rewrite String.eqb_refl. repeat split.
    + destruct (String.eqb_spec key key') as [->|_]; [contradiction | reflexivity].
    + cbn. destruct (String.eqb_spec key key') as [->|_]; [contradiction | reflexivity].
  - destruct IH as (IH1 & IH2 & IH3 & IH4).
    destruct (String.eqb_spec k key) as [->|Hne];
      cbn [mapGet mapHas existsb fst orb].
    + rewrite String.eqb_refl. split; [reflexivity|]. split; [reflexivity|].
      split; [|reflexivity]. intros key' Hk.
      destruct (String.eqb_spec key key') as [->|_]; [contradiction|].
      split; reflexivity.
    + destruct (String.eqb_spec k key) as [E|_]; [contradiction|].
      cbn [orb]. split; [exact IH1|]. split; [exact IH2|]. split.
      * intros key' Hk. destruct (IH3 key' Hk) as [H1 H2].
        destruct (String.eqb k key'); [split; reflexivity|].
        cbn [orb]. split; assumption.
      * cbn [fmap list_fmap fst].
        change (list_fmap _ _ fst (addToMapOfItems map key value))
          with ((addToMapOfItems map key value).*1).
        rewrite IH4. unfold mapHas. destruct (existsb _ map); reflexivity.
Qed.
End MoreMapFacts.

Section MoreAssignNamesFacts.
Context {T : Type}.
Variable getShortName : T -> string.
Variable getLongName : T -> string -> string.
Variable comparator : T -> T -> Z.

(** the numbering loop over the items of one bucket: the items are named
    in order with [k + i] for increasing numbers [i] *)
Lemma assignNumbered_calls (map2 : list (string * list T)) (k : string)
    (its : list T) : forall i0 st,
  exists idxs : list Z,
    length idxs = length its
    /\ Forall (fun i => i0 <= i) idxs
    /\ StronglySorted Z.lt idxs
    /\ assigned (snd (fold_left (assignNumbered map2 k) its (i0, st)))
       = assigned st ++ zip its ((fun i => k +:+ JS.numToString i) <$> idxs)
    /\ usedIds (snd (fold_left (assignNumbered map2 k) its (i0, st)))
       = list_to_set ((fun i => k +:+ JS.numToString i) <$> idxs) ∪ usedIds st.
Proof.
  induction its as [|x its IH]; intros i0 st.
  - exists []. cbn. repeat split; try constructor.
    + rewrite app_nil_r. reflexivity.
    + symmetry. apply (left_id_L ∅ (∪)).
  - cbn [fold_left assignNumbered].
    set (i := firstFree _ _ i0).
    assert (Hi : i0 <= i) by apply firstFree_ge.
    clearbody i.
    match goal with
    | |- context [fold_left _ its (i + 1, ?st1)] =>
        destruct (IH (i + 1) st1) as (idxs & Hlen & Hge & Hsorted & Hcalls & Hused)
    end.
    exists (i :: idxs). split; [cbn; lia|]. split.
    { constructor; [exact Hi|]. eapply Forall_impl; [exact Hge|].
      intros z Hz. cbn in Hz. lia. }
    split.
    { constructor; [exact Hsorted|]. eapply Forall_impl; [exact Hge|].
      intros z Hz. cbn in Hz. lia. }
    split.
    + rewrite Hcalls. cbn [assigned fmap list_fmap zip zip_with].
      rewrite <- app_assoc. reflexivity.
    + rewrite Hused. cbn [usedIds fmap list_fmap list_to_set].
      apply set_eq. intros y. rewrite !elem_of_union. tauto.
Qed.

Lemma StronglySorted_lt_NoDup (l : list Z) : StronglySorted Z.lt l -> NoDup l.
Proof.
  induction 1 as [|x l Hs IH Hall]; [constructor|].
  apply NoDup_cons. split; [|exact IH].
  intros Hx. rewrite Forall_forall in Hall.
  specialize (Hall x Hx). lia.
Qed.

Lemma snd_pair_fmap (k : string) (arr : list T) : (pair k <$> arr).*2 = arr.
Proof.
  induction arr as [|x arr IH]; [reflexivity|]. cbn. f_equal. exact IH.
Qed.

(** what the third loop does for one bucket *)
Lemma resolveBucket_calls (map2 : list (string * list T)) st k arr :
  exists news,
    assigned (resolveBucket comparator map2 st (k, arr)) = assigned st ++ news
    /\ usedIds (resolveBucket comparator map2 st (k, arr))
       = list_to_set news.*2 ∪ usedIds st
    /\ (k = "" -> news = []
         /\ unnamedItems (resolveBucket comparator map2 st (k, arr))
            = unnamedItems st ++ arr)
    /\ (k <> "" ->
         unnamedItems (resolveBucket comparator map2 st (k, arr)) = unnamedItems st
         /\ news.*1 ≡ₚ arr /\ NoDup news.*2 /\ Forall (nameOf k) news.*2).
Proof.
  assert (Hnum :
    exists news,
      assigned (snd (fold_left (assignNumbered map2 k)
                               (JS.sort comparator arr) (0, st)))
        = assigned st ++ news
      /\ usedIds (snd (fold_left (assignNumbered map2 k)
                                 (JS.sort comparator arr) (0, st)))
         = list_to_set news.*2 ∪ usedIds st
      /\ unnamedItems (snd (fold_left (assignNumbered map2 k)
                                      (JS.sort comparator arr) (0, st)))
         = unnamedItems st
      /\ news.*1 ≡ₚ arr /\ NoDup news.*2 /\ Forall (nameOf k) news.*2).
  { destruct (assignNumbered_calls map2 k (JS.sort comparator arr) 0 st)
      as (idxs & Hlen & Hge & Hsorted & Hcalls & Hused).
    exists (zip (JS.sort comparator arr)
                ((fun i => k +:+ JS.numToString i) <$> idxs)).
    assert (H2 : (zip (JS.sort comparator arr)
                      ((fun i => k +:+ JS.numToString i) <$> idxs)).*2
                 = (fun i => k +:+ JS.numToString i) <$> idxs)
      by (apply snd_zip; rewrite length_fmap; lia).
    assert (H1 : (zip (JS.sort comparator arr)
                      ((fun i => k +:+ JS.numToString i) <$> idxs)).*1
                 = JS.sort comparator arr)
      by (apply fst_zip; rewrite length_fmap; lia).
    rewrite H1, H2. split; [exact Hcalls|]. split; [exact Hused|].
    split; [apply assignNumbered_unnamed|].
    split; [symmetry; apply sort_perm|]. split.
    - apply NoDup_fmap_2; [|apply StronglySorted_lt_NoDup, Hsorted].
      intros a b E. apply (append_numToString_inj k), E.
    - apply Forall_fmap. eapply Forall_impl; [exact Hge|].
      intros i Hi. right. exists i. auto. }
  cbn [resolveBucket]. destruct (String.eqb_spec k "") as [->|Hne].
  - exists []. cbn [assigned usedIds unnamedItems]. rewrite app_nil_r.
    split; [reflexivity|]. split; [symmetry; apply (left_id_L ∅ (∪))|].
    split; [auto | congruence].
  - assert (Hgen : forall st',
      (exists news,
         assigned st' = assigned st ++ news
         /\ usedIds st' = list_to_set news.*2 ∪ usedIds st
         /\ unnamedItems st' = unnamedItems st
         /\ news.*1 ≡ₚ arr /\ NoDup news.*2 /\ Forall (nameOf k) news.*2) ->
      exists news,
        assigned st' = assigned st ++ news
        /\ usedIds st' = list_to_set news.*2 ∪ usedIds st
        /\ (k = "" -> news = [] /\ unnamedItems st' = unnamedItems st ++ arr)
        /\ (k <> "" ->
             unnamedItems st' = unnamedItems st
             /\ news.*1 ≡ₚ arr /\ NoDup news.*2 /\ Forall (nameOf k) news.*2)).
    { intros st' (news & H1 & H2 & H3 & H4 & H5 & H6). exists news.
      split; [exact H1|]. split; [exact H2|]. split; [congruence | auto]. }
    destruct arr as [|x [|y arr]]; try (apply Hgen, Hnum).
    destruct (negb (has (usedIds st) k)); [|apply Hgen, Hnum].
    apply Hgen. exists [(x, k)]. cbn [assigned usedIds unnamedItems fmap list_fmap fst snd].
    split; [reflexivity|]. split.
    { cbn. apply set_eq. intros z. rewrite !elem_of_union, elem_of_empty. tauto. }
    split; [reflexivity|]. split; [reflexivity|]. split.
    + apply NoDup_singleton.
    + constructor; [left; reflexivity | constructor].
Qed.

(** what the third loop does for buckets with different names [c x] for
    their items [x] *)
Lemma resolveBuckets_calls (c : T -> string) (map2 l : list (string * list T)) :
  NoDup l.*1 ->
  (forall k arr x, (k, arr) ∈ l -> x ∈ arr -> c x = k) ->
  forall st, exists news,
    assigned (fold_left (resolveBucket comparator map2) l st) = assigned st ++ news
    /\ usedIds (fold_left (resolveBucket comparator map2) l st)
       = list_to_set news.*2 ∪ usedIds st
    /\ news.*1 ++ unnamedItems (fold_left (resolveBucket comparator map2) l st)
       ≡ₚ unnamedItems st ++ (entries l).*2
    /\ Forall (fun p => c p.1 ∈ l.*1 /\ c p.1 <> "" /\ nameOf (c p.1) p.2) news
    /\ NoDup ((fun p => (c p.1, p.2)) <$> news).
Proof.
  induction l as [|[k arr] l IH]; intros Hnd Hc st.
  - exists []. cbn. rewrite !app_nil_r. split; [reflexivity|].
    split; [symmetry; apply (left_id_L ∅ (∪))|]. split; [reflexivity|].
    split; constructor.
  - cbn [fmap list_fmap fst] in Hnd. apply NoDup_cons in Hnd as [Hk Hnd].
    cbn [fold_left].
    destruct (resolveBucket_calls map2 st k arr) as (news1 & A1 & U1 & E1 & N1).
    destruct (IH Hnd (fun k0 a0 x H0 => Hc k0 a0 x (list_elem_of_further _ _ _ H0))
                (resolveBucket comparator map2 st (k, arr)))
      as (news2 & A2 & U2 & P2 & F2 & D2).
    assert (Hc1 : forall p, p ∈ news1 -> k <> "" -> c p.1 = k).
    { intros p Hp Hne. destruct (N1 Hne) as (_ & Hperm & _).
      apply (Hc k arr); [left|]. rewrite <- Hperm.
      apply list_elem_of_fmap. exists p. auto. }
    exists (news1 ++ news2). split; [rewrite A2, A1, app_assoc; reflexivity|].
    split.
    { rewrite U2, U1, fmap_app, list_to_set_app_L. apply set_eq. intros z.
      rewrite !elem_of_union. tauto. }
    split.
    { rewrite fmap_app, <- app_assoc, P2, entries_cons, fmap_app, snd_pair_fmap.
      destruct (String.eqb_spec k "") as [Hk0|Hk0].
      - destruct (E1 Hk0) as [-> ->]. cbn [fmap list_fmap app].
        rewrite <- app_assoc. reflexivity.
      - destruct (N1 Hk0) as (-> & Hperm & _). rewrite Hperm.
        rewrite !app_assoc. apply Permutation_app_tail, Permutation_app_comm. }
    split.
    { apply Forall_app. split.
      - apply Forall_forall. intros p Hp.
        destruct (String.eqb_spec k "") as [Hk0|Hk0].
        + destruct (E1 Hk0) as [-> _]. inversion Hp.
        + rewrite (Hc1 p Hp Hk0). split; [left|]. split; [exact Hk0|].
          destruct (N1 Hk0) as (_ & _ & _ & Hshape).
          rewrite Forall_forall in Hshape. apply Hshape.
          apply list_elem_of_fmap. exists p. auto.
      - eapply Forall_impl; [exact F2|]. intros p (H1 & H2 & H3).
        split; [right; exact H1 | auto]. }
    rewrite fmap_app. apply NoDup_app. split; [|split; [|exact D2]].
    + destruct (String.eqb_spec k "") as [Hk0|Hk0].
      * destruct (E1 Hk0) as [-> _]. constructor.
      * destruct (N1 Hk0) as (_ & _ & Hnames & _).
        apply (NoDup_fmap_1 snd). rewrite <- list_fmap_compose. exact Hnames.
    + intros q Hq1 Hq2.
      apply list_elem_of_fmap in Hq1 as (p1 & -> & Hp1).
      apply list_elem_of_fmap in Hq2 as (p2 & E & Hp2).
      destruct (String.eqb_spec k "") as [Hk0|Hk0].
      * destruct (E1 Hk0) as [-> _]. inversion Hp1.
      * rewrite Forall_forall in F2.
        destruct (F2 p2 Hp2) as (Hin & _).
        injection E as E _. rewrite <- E, (Hc1 p1 Hp1 Hk0) in Hin. contradiction.
Qed.

Lemma NoDup_keys_regroup (nameToItems : list (string * list T)) :
  NoDup (regroup getLongName nameToItems).*1.
Proof.
  unfold regroup.
  assert (Hinner : forall name (its : list T) (map2 : list (string * list T)),
    NoDup map2.*1 ->
    NoDup (fold_left
             (fun map2 item => addToMapOfItems map2 (getLongName item name) item)
             its map2).*1).
  { intros name its. induction its as [|x its IH]; intros map2 Hnd; [exact Hnd|].
    cbn [fold_left]. apply IH, NoDup_keys_add, Hnd. }
  assert (H : forall map2 : list (string * list T), NoDup map2.*1 ->
    NoDup (fold_left
      (fun map2 entry =>
         let '(name, items) := entry in
         if (1 <? Z.of_nat (length items)) || String.eqb name "" then
           fold_left
             (fun map2 item => addToMapOfItems map2 (getLongName item name) item)
             items map2
         else
           match items with
           | item :: _ => addToMapOfItems map2 name item
           | [] => map2
           end) nameToItems map2).*1).
  { induction nameToItems as [|[name its] ntoi IH]; intros map2 Hnd; [exact Hnd|].
    cbn [fold_left]. apply IH.
    destruct ((1 <? Z.of_nat (length its)) || String.eqb name "");
      [apply Hinner, Hnd|].
    destruct its; [exact Hnd | apply NoDup_keys_add, Hnd]. }
  apply H. constructor.
Qed.

(** one pass of [assignNames], with the candidate names of the items *)
Lemma assignNames_calls (items : list T) (usedIds0 : gset string) :
  let cand := candidateName getShortName getLongName items in
  let result := assignNames getShortName getLongName comparator items usedIds0 in
  result.1.1.*1 ++ result.2 ≡ₚ items
  /\ result.1.2 = list_to_set result.1.1.*2 ∪ usedIds0
  /\ Forall (fun p => cand p.1 <> "" /\ nameOf (cand p.1) p.2) result.1.1
  /\ NoDup ((fun p => (cand p.1, p.2)) <$> result.1.1).
Proof.
  cbv zeta. unfold assignNames. cbn [fst snd].
  set (map2 := regroup getLongName (groupByShortName getShortName items)).
  pose proof (nameToItems2_spec getShortName getLongName items) as Hent.
  fold map2 in Hent.
  assert (Hc : forall k arr x, (k, arr) ∈ map2 -> x ∈ arr ->
            candidateName getShortName getLongName items x = k).
  { intros k arr x Hk Hx.
    assert (Hin : (k, x) ∈ entries map2).
    { apply list_elem_of_bind. exists (k, arr). split; [|exact Hk].
      cbn. apply list_elem_of_fmap. exists x. auto. }
    rewrite Hent in Hin. apply list_elem_of_fmap in Hin as (y & E & _).
    injection E as -> ->. reflexivity. }
  destruct (resolveBuckets_calls
              (candidateName getShortName getLongName items) map2 map2
              (NoDup_keys_regroup (groupByShortName getShortName items)) Hc
              {| usedIds := usedIds0; assigned := []; unnamedItems := [] |})
    as (news & A & U & P & F & D).
  cbn [assigned usedIds unnamedItems app] in A, U, P.
  rewrite A, U. split.
  - rewrite <- (sort_perm comparator), P, Hent, <- list_fmap_compose.
    clear. induction items as [|x l IH]; [reflexivity|].
    cbn. apply perm_skip.
    etransitivity; [|exact IH]. reflexivity.
  - split; [reflexivity|]. split; [|exact D].
    eapply Forall_impl; [exact F|]. intros p (_ & H1 & H2). auto.
Qed.

(** One pass of [assignNames] names or returns every item once: the items
    handed to [assignName], together with the returned unnamed items, are
    the items of the input. *)
Theorem assignNames_partition (items : list T) (usedIds0 : gset string) :
  (assignNames getShortName getLongName comparator items usedIds0).1.1.*1
  ++ (assignNames getShortName getLongName comparator items usedIds0).2
  ≡ₚ items.
Proof. exact (proj1 (assignNames_calls items usedIds0)). Qed.

(** The name given to an item is its candidate name -- the short name when
    it is not empty and no other item has it, the long name otherwise --
    or that name followed by a decimal number; the candidate name of a named
    item is not empty, and that of a returned, unnamed item is. *)
Theorem assignNames_name_shape (items : list T) (usedIds0 : gset string) :
  let cand := candidateName getShortName getLongName items in
  let result := assignNames getShortName getLongName comparator items usedIds0 in
  (forall x n, (x, n) ∈ result.1.1 -> cand x <> "" /\ nameOf (cand x) n)
  /\ (forall x, x ∈ result.2 -> cand x = "").
Proof.
  cbv zeta. split.
  - intros x n Hin.
    destruct (assignNames_calls items usedIds0) as (_ & _ & F & _).
    rewrite Forall_forall in F.
    exact (F (x, n) Hin).
  - intros x Hx.
    destruct (assignNames_unnamed getShortName getLongName comparator items usedIds0)
      as (u & E & Hu).
    rewrite E, <- (sort_perm comparator), Hu in Hx.
    apply list_elem_of_filter in Hx as [Hx _]. exact Hx.
Qed.

(** The set of used names after a pass is the set before it with the names
    that the pass assigned: nothing else is added and nothing removed. *)
Theorem assignNames_usedIds (items : list T) (usedIds0 : gset string) :
  (assignNames getShortName getLongName comparator items usedIds0).1.2
  = list_to_set
      (assignNames getShortName getLongName comparator items usedIds0).1.1.*2
    ∪ usedIds0.
Proof. exact (proj1 (proj2 (assignNames_calls items usedIds0))). Qed.

(** Two items with the same candidate name never receive the same name:
    the pairs of a candidate name and an assigned name are pairwise
    different over the calls of [assignName]. *)
Theorem assignNames_distinct_in_bucket (items : list T) (usedIds0 : gset string) :
  NoDup
    ((fun p => (candidateName getShortName getLongName items p.1, p.2))
       <$> (assignNames getShortName getLongName comparator items usedIds0).1.1).
Proof. exact (proj2 (proj2 (proj2 (assignNames_calls items usedIds0)))). Qed.
End MoreAssignNamesFacts.


(** ** The ascending assigners: which numbers are given *)

Section MoreAscendingFacts.

Lemma skipsOver_used usedIds :
  skipsOver (fun n => JS.numToString n ∈ usedIds) (skipUsedIds usedIds).
Proof.
  intros n. destruct (skipUsedIds_spec usedIds n) as (H1 & _ & H3). auto.
Qed.

Lemma skipsOver_none (Q : Z -> Prop) : skipsOver Q (fun nextId => nextId).
Proof. intros n. split; [lia|]. intros j Hj. lia. Qed.

Lemma skipsOver_skips Q skip : skipsOver Q skip -> skips (fun _ => True) skip.
Proof. intros H n. destruct (H n) as [Hge _]. auto. Qed.

Lemma assignChunksFrom_given (P Q : Z -> Prop) skip :
  skips P skip -> skipsOver Q skip ->
  forall cs nextId,
    let given := numbersGiven cs (assignChunksFrom skip cs nextId) in
    length given = length (List.filter hasNoId cs)
    /\ StronglySorted Z.lt given
    /\ Forall (fun i => nextId <= i /\ P i) given
    /\ (forall i j, i ∈ given -> nextId <= j < i -> j ∈ given \/ Q j).
Proof.
  intros HP HQ cs. induction cs as [|c cs IH]; intros nextId; cbv zeta.
  - cbn. split; [reflexivity|]. split; [constructor|]. split; [constructor|].
    intros i j Hi. inversion Hi.
  - cbn [assignChunksFrom List.filter]. unfold hasNoId at 1.
    destruct (id c) as [v|] eqn:Ec.
    + unfold numbersGiven. cbn [zip zip_with omap list_omap fst snd].
      rewrite Ec. apply IH.
    + unfold numbersGiven.
      cbn [zip zip_with omap list_omap fst snd id]. rewrite Ec.
      fold (numbersGiven cs (assignChunksFrom skip cs (skip nextId + 1))).
      destruct (IH (skip nextId + 1)) as (H1 & H2 & H3 & H4).
      destruct (HP nextId) as [Hge Hp]. destruct (HQ nextId) as [_ Hq].
      set (n := skip nextId) in *.
      set (given := numbersGiven cs (assignChunksFrom skip cs (n + 1))) in *.
      split; [cbn [length]; rewrite H1; reflexivity|].
      split.
      { constructor; [exact H2|]. eapply List.Forall_impl; [|exact H3].
        intros z Hz. cbn in Hz. lia. }
      split.
      { constructor; [auto|]. eapply Forall_impl; [exact H3|].
        intros z Hz. cbn in Hz. split; [lia | tauto]. }
      intros i j Hi Hj. apply elem_of_cons in Hi as [->|Hi]; [right; auto|].
      destruct (Z_lt_le_dec j n) as [Hlt|Hle]; [right; apply Hq; lia|].
      destruct (Z.eq_dec j n) as [->|Hne]; [left; left|].
      destruct (H4 i j Hi) as [Hin|HQj]; [lia | left; right; exact Hin | right; exact HQj].
Qed.

(** The chunks without an id receive, in the order of the chunks, the
    first free numbers from 0 on: one number for each such chunk, in
    strictly increasing order, none with its string form among the used
    ids, and no free number is left out below a given one -- every number
    below a given number was given too or is used. *)
Theorem assignAscendingChunkIds_first_free (cs : list Chunk)
    (compilation : Compilation) :
  let given := numbersGiven cs (assignAscendingChunkIds cs compilation) in
  length given = length (List.filter hasNoId cs)
  /\ StronglySorted Z.lt given
  /\ Forall (fun i => 0 <= i /\ JS.numToString i ∉ getUsedChunkIds compilation)
            given
  /\ (forall i j, i ∈ given -> 0 <= j < i ->
        j ∈ given \/ JS.numToString j ∈ getUsedChunkIds compilation).
Proof.
  cbv zeta. unfold assignAscendingChunkIds.
  destruct (0 <? Z.of_nat (size (getUsedChunkIds compilation))) eqn:E.
  - apply (assignChunksFrom_given _ _ _ (skips_used _) (skipsOver_used _)).
  - apply Z.ltb_ge in E.
    apply (assignChunksFrom_given _ _ _
             (skips_none (getUsedChunkIds compilation) ltac:(lia))
             (skipsOver_none _)).
Qed.

Lemma assignChunksFrom_assigned skip cs :
  forall nextId, Forall (fun c => hasNoId c = false) cs ->
  assignChunksFrom skip cs nextId = cs.
Proof.
  induction cs as [|c cs IH]; intros nextId H; [reflexivity|].
  apply Forall_cons in H as [Hc H]. cbn [assignChunksFrom].
  unfold hasNoId in Hc. destruct (id c); [|discriminate Hc].
  rewrite IH by exact H. reflexivity.
Qed.

Lemma assignChunksFrom_all_assigned skip cs :
  forall nextId,
    Forall (fun c => hasNoId c = false) (assignChunksFrom skip cs nextId).
Proof.
  induction cs as [|c cs IH]; intros nextId; cbn [assignChunksFrom];
    [constructor|].
  destruct (id c) eqn:Ec; constructor; try apply IH.
  - unfold hasNoId. rewrite Ec. reflexivity.
  - reflexivity.
Qed.

(** After a pass of [assignAscendingChunkIds] no chunk of the argument is
    without an id, so a second pass over the same chunks, with whatever
    compilation, leaves every chunk as it is. *)
Theorem assignAscendingChunkIds_twice (cs : list Chunk)
    (compilation compilation' : Compilation) :
  Forall (fun c => hasNoId c = false) (assignAscendingChunkIds cs compilation)
  /\ assignAscendingChunkIds (assignAscendingChunkIds cs compilation) compilation'
     = assignAscendingChunkIds cs compilation.
Proof.
  assert (H : Forall (fun c => hasNoId c = false)
                     (assignAscendingChunkIds cs compilation)).
  { unfold assignAscendingChunkIds.
    destruct (0 <? _); apply assignChunksFrom_all_assigned. }
  split; [exact H|].
  unfold assignAscendingChunkIds at 1.
  destruct (0 <? _); apply assignChunksFrom_assigned, H.
Qed.

Lemma assignModulesFrom_given (Q : Z -> Prop) skip :
  skipsOver Q skip ->
  forall ms nextId (tbl : gmap string Id) k n j,
    tbl !! k = None ->
    assignModulesFrom skip ms nextId tbl !! k = Some (IdNumber n) ->
    nextId <= j < n ->
    Q j \/ exists m, m ∈ ms /\ tbl !! identifier m = None
                     /\ assignModulesFrom skip ms nextId tbl !! identifier m
                        = Some (IdNumber j).
Proof.
  intros HQ ms. induction ms as [|m ms IH]; intros nextId tbl k n j Hk Hn Hj.
  - cbn [assignModulesFrom] in Hn. congruence.
  - cbn [assignModulesFrom] in *. unfold getModuleId, setModuleId in *.
    destruct (tbl !! identifier m) as [v0|] eqn:Em.
    + destruct (IH nextId tbl k n j Hk Hn Hj) as [Hq|(m' & Hm' & H1 & H2)];
        [left; exact Hq|].
      right. exists m'. split; [right; exact Hm' | auto].
    + destruct (HQ nextId) as [Hge Hq].
      set (n0 := skip nextId) in *.
      pose proof (assignModulesFrom_spec _ skip (skipsOver_skips _ _ HQ) ms
                    (n0 + 1) (<[identifier m := IdNumber n0]> tbl)) as (Hkeep & _).
      assert (Hm : assignModulesFrom skip ms (n0 + 1)
                     (<[identifier m := IdNumber n0]> tbl) !! identifier m
                   = Some (IdNumber n0))
        by (apply Hkeep, lookup_insert_eq).
      destruct (Z_lt_le_dec j n0) as [Hlt|Hle]; [left; apply Hq; lia|].
      destruct (Z.eq_dec j n0) as [->|Hne].
      { right. exists m. split; [left|]. split; [exact Em | exact Hm]. }
      destruct (decide (k = identifier m)) as [->|Hkm].
      { rewrite Hm in Hn. injection Hn as <-. lia. }
      destruct (IH (n0 + 1) (<[identifier m := IdNumber n0]> tbl) k n j)
        as [HQj|(m' & Hm' & H1 & H2)];
        [rewrite lookup_insert_ne by congruence; exact Hk | exact Hn | lia
        | left; exact HQj |].
      right. exists m'. split; [right; exact Hm'|]. split; [|exact H2].
      apply lookup_insert_None in H1 as [H1 _]. exact H1.
Qed.

(** [assignAscendingModuleIds] leaves no free number out: when a module
    that had no id is given the number [n], every number from 0 to [n - 1]
    is the string form of a used id or was given, in the same pass, to a
    module of the argument that had no id. *)
Theorem assignAscendingModuleIds_first_free (ms : list Module)
    (compilation : Compilation) (m : Module) (n j : Z) :
  getModuleId (moduleIds compilation) m = None ->
  getModuleId (assignAscendingModuleIds ms compilation) m = Some (IdNumber n) ->
  0 <= j < n ->
  JS.numToString j ∈ getUsedModuleIds compilation
  \/ exists m', m' ∈ ms
       /\ getModuleId (moduleIds compilation) m' = None
       /\ getModuleId (assignAscendingModuleIds ms compilation) m'
          = Some (IdNumber j).
Proof.
  unfold getModuleId, assignAscendingModuleIds. intros Hm Hn Hj.
  destruct (0 <? Z.of_nat (size (getUsedModuleIds compilation))).
  - exact (assignModulesFrom_given _ _ (skipsOver_used _) ms 0 _ _ n j Hm Hn Hj).
  - exact (assignModulesFrom_given
             (fun j => JS.numToString j ∈ getUsedModuleIds compilation) _
             (skipsOver_none _) ms 0 _ _ n j Hm Hn Hj).
Qed.

Lemma assignModulesFrom_assigned skip ms :
  forall nextId (tbl : gmap string Id),
    (forall m, m ∈ ms -> is_Some (tbl !! identifier m)) ->
    assignModulesFrom skip ms nextId tbl = tbl.
Proof.
  induction ms as [|m ms IH]; intros nextId tbl H; [reflexivity|].
  cbn [assignModulesFrom]. unfold getModuleId.
  destruct (H m ltac:(left)) as [v ->].
  apply IH. intros m' Hm'. apply H. right. exact Hm'.
Qed.

(** After a pass of [assignAscendingModuleIds] every module of the
    argument has an id, so a second pass over the same modules changes
    no id, whatever the other fields of the compilation are. *)
Theorem assignAscendingModuleIds_twice (ms : list Module)
    (compilation : Compilation) (used : option (list Id)) (all : list Module)
    (usedChunks : option (list Id)) (cs : list Chunk) :
  (forall m, m ∈ ms ->
     is_Some (getModuleId (assignAscendingModuleIds ms compilation) m))
  /\ assignAscendingModuleIds ms
       {| usedModuleIds := used; modules := all;
          moduleIds := assignAscendingModuleIds ms compilation;
          usedChunkIds := usedChunks; chunks := cs |}
     = assignAscendingModuleIds ms compilation.
Proof.
  assert (H : forall m, m ∈ ms ->
            is_Some (assignAscendingModuleIds ms compilation !! identifier m)).
  { unfold assignAscendingModuleIds.
    destruct (0 <? _).
    - apply (assignModulesFrom_spec _ _ (skips_used _) ms 0
               (moduleIds compilation)).
    - apply (assignModulesFrom_spec _ _
               (skipsOver_skips _ _ (skipsOver_none (fun _ => True))) ms 0
               (moduleIds compilation)). }
  split; [exact H|].
  unfold assignAscendingModuleIds at 1. cbn [moduleIds].
  destruct (0 <? _); apply assignModulesFrom_assigned, H.
Qed.
End MoreAscendingFacts.

Lemma assignAscendingModuleIds_first_free_witness :
  JS.numToString 1
    ∈ getUsedModuleIds
        {| usedModuleIds := Some [IdNumber 1]; modules := [];
           moduleIds := ∅; usedChunkIds := None; chunks := [] |}
  \/ exists m', m' ∈ [Samples.plainModule "./a"; Samples.plainModule "./b";
                      Samples.plainModule "./c"]
       /\ getModuleId ∅ m' = None
       /\ getModuleId
            (assignAscendingModuleIds
               [Samples.plainModule "./a"; Samples.plainModule "./b";
                Samples.plainModule "./c"]
               {| usedModuleIds := Some [IdNumber 1]; modules := [];
                  moduleIds := ∅; usedChunkIds := None; chunks := [] |}) m'
          = Some (IdNumber 1).
Proof.
  apply (assignAscendingModuleIds_first_free
           [Samples.plainModule "./a"; Samples.plainModule "./b";
            Samples.plainModule "./c"]
           {| usedModuleIds := Some [IdNumber 1]; modules := [];
              moduleIds := ∅; usedChunkIds := None; chunks := [] |}
           (Samples.plainModule "./c") 3 1);
    [reflexivity | vm_compute; reflexivity | lia].
Defined.

(** ** [assignDeterministicIds]: the width of the ids and the probing *)

Section MoreDeterministicFacts.
Import CharClass HashSpec.

Lemma usedMaxLength_width (maxLength : option Z) (n : nat) :
  5 * Z.of_nat n + 4 <= 4 * 10 ^ usedMaxLength maxLength n
  /\ ((1 <= n)%nat -> 1 <= usedMaxLength maxLength n)
  /\ (5 * Z.of_nat n + 4 <= 4 * 10 ^ 15 -> usedMaxLength maxLength n <= 15).
Proof.
  unfold usedMaxLength.
  destruct (optimalLength_spec n) as (H0 & Hfill & Hleast). cbv zeta in *.
  set (k := optimalLength n) in *. split; [|split].
  - eapply Z.le_trans; [exact Hfill|]. apply Z.mul_le_mono_nonneg_l; [lia|].
    apply Z.pow_le_mono_r; lia.
  - intros Hn. destruct (Z_lt_le_dec k 1) as [Hlt|Hle]; [|lia].
    assert (Hk : k = 0) by lia. rewrite Hk in Hfill. simpl in Hfill. lia.
  - intros Hsmall. apply Z.max_lub; [lia|].
    destruct (Z_lt_le_dec 15 k) as [Hlt|Hle]; [|exact Hle].
    specialize (Hleast 15 ltac:(lia)). lia.
Qed.

(** an array has fewer than 2^32 elements: the width is at most 15 *)
Lemma usedMaxLength_array (maxLength : option Z) (n : nat) :
  Z.of_nat n < 2 ^ 32 -> usedMaxLength maxLength n <= 15.
Proof.
  intros Hn. apply usedMaxLength_width.
  change (2 ^ 32) with 4294967296 in Hn.
  change (10 ^ 15) with 1000000000000000. lia.
Qed.

(** The number of digits that [assignDeterministicIds] uses: the requested
    number, cut at 15, or the optimal one if that is larger.  With it the
    ids fill at most 80% of the numbers of that many digits
    ([n * 1.25 + 1 <= 10^width]); it is at least 1 when there is an item,
    and at most 15 as long as the optimal length is. *)
Theorem usedMaxLength_spec (maxLength : option Z) (n : nat) :
  let width := usedMaxLength maxLength n in
  5 * Z.of_nat n + 4 <= 4 * 10 ^ width
  /\ ((1 <= n)%nat -> 1 <= width)
  /\ Z.min (default 0 maxLength) 15 <= width
  /\ (width = Z.min (default 0 maxLength) 15 \/ width = optimalLength n)
  /\ (5 * Z.of_nat n + 4 <= 4 * 10 ^ 15 -> width <= 15).
Proof.
  cbv zeta. unfold usedMaxLength.
  destruct (optimalLength_spec n) as (H0 & Hfill & Hleast). cbv zeta in *.
  set (k := optimalLength n) in *.
  set (m := Z.min (default 0 maxLength) 15).
  destruct (usedMaxLength_width maxLength n) as (Hw1 & Hw2 & _).
  unfold usedMaxLength in Hw1, Hw2. fold k m in Hw1, Hw2.
  split; [exact Hw1|]. split; [exact Hw2|].
  split; [lia|]. split; [lia|].
  intros Hsmall. apply Z.max_lub; [subst m; lia|].
  destruct (Z_lt_le_dec 15 k) as [Hlt|Hle]; [|exact Hle].
  specialize (Hleast 15 ltac:(lia)). lia.
Qed.

Variable md4 : string -> string.
Context {T : Type}.
Variable getName : T -> string.
Variable comparator : T -> T -> Z.

(** the id that the [do ... while] loop leaves is the one of the first
    counter value whose id is not used *)
Lemma probe_first fuel ident len usedIds : forall i0 id,
  probe md4 fuel ident len usedIds i0 = Some id ->
  exists i, i0 <= i
    /\ id = getHashNumber md4 (ident +:+ JS.numToString i) len
    /\ forall j, i0 <= j < i ->
         JSNumber.toString (getHashNumber md4 (ident +:+ JS.numToString j) len)
           ∈ usedIds.
Proof.
  induction fuel as [|fuel IH]; intros i0 id H; cbn [probe] in H;
    [discriminate H|]. cbv zeta in H.
  destruct (has usedIds _) eqn:E.
  - destruct (IH _ _ H) as (i & Hi & Hid & Hbelow).
    exists i. split; [lia|]. split; [exact Hid|].
    intros j Hj. destruct (Z.eq_dec j i0) as [->|Hne]; [|apply Hbelow; lia].
    unfold has in E. apply bool_decide_eq_true in E. exact E.
  - injection H as <-. exists i0. split; [lia|]. split; [reflexivity|].
    intros j Hj. lia.
Qed.

Lemma assignEach_first fuel len items : forall usedIds calls usedIds',
  assignEach md4 getName fuel len items usedIds = Some (calls, usedIds') ->
  forall pre item id post, calls = pre ++ (item, id) :: post ->
  exists i, 0 <= i
    /\ id = getHashNumber md4 (getName item +:+ JS.numToString i) len
    /\ forall j, 0 <= j < i ->
         let c := getHashNumber md4 (getName item +:+ JS.numToString j) len in
         JSNumber.toString c ∈ usedIds
         \/ JSNumber.toString c ∈ JSNumber.toString <$> pre.*2.
Proof.
  induction items as [|item0 items IH]; intros usedIds calls usedIds' H
    pre item id post Hcalls; cbn [assignEach] in H.
  - injection H as <- <-. destruct pre; discriminate Hcalls.
  - destruct (probe md4 fuel (getName item0) len usedIds 0) as [id0|] eqn:Ep;
      [|discriminate H]. cbn in H.
    destruct (assignEach md4 getName fuel len items _) as [[calls0 used0]|] eqn:Er;
      [|discriminate H]. cbn in H. injection H as <- <-.
    destruct pre as [|call0 pre]; cbn [app] in Hcalls.
    + injection Hcalls as -> -> _.
      destruct (probe_first _ _ _ _ _ _ Ep) as (i & Hi & Hid & Hbelow).
      exists i. split; [exact Hi|]. split; [exact Hid|].
      intros j Hj. left. apply Hbelow, Hj.
    + injection Hcalls as <- Hcalls.
      destruct (IH _ _ _ Er pre item id post Hcalls) as (i & Hi & Hid & Hbelow).
      exists i. split; [exact Hi|]. split; [exact Hid|].
      intros j Hj. cbv zeta. destruct (Hbelow j Hj) as [Hu|Hp].
      * apply elem_of_union in Hu as [Hu|Hu]; [|left; exact Hu].
        apply elem_of_singleton in Hu.
        right. cbn [fmap list_fmap snd]. rewrite Hu. left.
      * right. cbn [fmap list_fmap snd]. right. exact Hp.
Qed.

(** the ids of a pass are hash numbers *)
Lemma assignEach_hashes fuel len items : forall usedIds calls usedIds',
  assignEach md4 getName fuel len items usedIds = Some (calls, usedIds') ->
  Forall (fun id => exists s, id = getHashNumber md4 s len) calls.*2.
Proof.
  induction items as [|item0 items IH]; intros usedIds calls usedIds' H;
    cbn [assignEach] in H.
  - injection H as <- <-. constructor.
  - destruct (probe md4 fuel (getName item0) len usedIds 0) as [id0|] eqn:Ep;
      [|discriminate H]. cbn in H.
    destruct (assignEach md4 getName fuel len items _) as [[calls0 used0]|] eqn:Er;
      [|discriminate H]. cbn in H. injection H as <- <-.
    cbn [fmap list_fmap snd]. constructor; [|apply (IH _ _ _ Er)].
    destruct (probe_first _ _ _ _ _ _ Ep) as (i & _ & -> & _). eauto.
Qed.

(** Every id that a completed pass of [assignDeterministicIds] assigns is
    the hash number of the item's name followed by a counter, cut to the
    used number of digits, for the first counter value from 0 on whose
    hash number is free: every earlier one has the string form of a used
    id or of an id assigned to an item earlier in the sorted order -- with
    a digest of hex digits and an array of fewer than 2^32 items, it is
    itself in the set of used ids, by its string form, or was assigned to
    an earlier item. *)
Theorem assignDeterministicIds_first_free fuel items maxLength usedIds
    calls usedIds' pre item id post :
  assignDeterministicIds md4 getName comparator fuel items maxLength usedIds
    = Some (calls, usedIds') ->
  calls = pre ++ (item, id) :: post ->
  let width := usedMaxLength maxLength (length items) in
  exists i, 0 <= i
    /\ id = getHashNumber md4 (getName item +:+ JS.numToString i) width
    /\ (forall j, 0 <= j < i ->
          let c := getHashNumber md4 (getName item +:+ JS.numToString j) width in
          JSNumber.toString c ∈ usedIds
          \/ JSNumber.toString c ∈ JSNumber.toString <$> pre.*2)
    /\ ((forall s, isHexDigest (md4 s) = true) ->
        Z.of_nat (length items) < 2 ^ 32 ->
        forall j, 0 <= j < i ->
          let c := getHashNumber md4 (getName item +:+ JS.numToString j) width in
          JSNumber.toString c ∈ usedIds \/ c ∈ pre.*2).
Proof.
  intros H Hcalls. cbv zeta.
  assert (Hlen : length calls = length items).
  { destruct (assignDeterministicIds_unique _ _ _ _ _ _ _ _ _ H) as (H1 & _).
    rewrite <- (length_fmap fst), H1. apply length_sort. }
  unfold assignDeterministicIds in H. rewrite length_sort in H.
  destruct (assignEach_first _ _ _ _ _ _ H pre item id post Hcalls)
    as (i & Hi & Hid & Hbelow).
  exists i. split; [exact Hi|]. split; [exact Hid|]. split; [exact Hbelow|].
  intros Hhex Harray j Hj.
  destruct (usedMaxLength_width maxLength (length items)) as (_ & Hone & _).
  pose proof (usedMaxLength_array maxLength (length items) Harray) as Hmax.
  assert (Hwidth : 1 <= usedMaxLength maxLength (length items) <= 15).
  { split; [apply Hone|exact Hmax]. rewrite <- Hlen, Hcalls, length_app.
    cbn [length]. lia. }
  destruct (Hbelow j Hj) as [Hu|Hp]; [left; exact Hu|]. right.
  apply list_elem_of_fmap in Hp as (id0 & E & Hin).
  pose proof (assignEach_hashes _ _ _ _ _ _ H) as Hall.
  rewrite Forall_forall in Hall.
  assert (Hin0 : id0 ∈ calls.*2).
  { rewrite Hcalls, fmap_app. apply elem_of_app. left. exact Hin. }
  destruct (Hall id0 Hin0) as (s0 & E0).
  rewrite E0, !getHashNumber_exact in E by (apply Hhex || exact Hwidth).
  cbn [JSNumber.toString] in E. apply numToString_inj in E.
  rewrite getHashNumber_exact by (apply Hhex || exact Hwidth).
  rewrite E, <- getHashNumber_exact by (apply Hhex || exact Hwidth).
  rewrite <- E0. exact Hin.
Qed.

(** With a digest of hex digits and an array of fewer than 2^32 items, at
    most 15 digits are used, and every id of a completed pass is an
    integer that is not negative and is below [10^width] for the used
    number of digits [width]; one id is assigned for each item, so at
    most 80% of these numbers are taken by the pass. *)
Theorem assignDeterministicIds_range fuel items maxLength usedIds
    calls usedIds' :
  (forall s, isHexDigest (md4 s) = true) ->
  Z.of_nat (length items) < 2 ^ 32 ->
  assignDeterministicIds md4 getName comparator fuel items maxLength usedIds
    = Some (calls, usedIds') ->
  let width := usedMaxLength maxLength (length items) in
  length calls = length items
  /\ Forall (fun id => exists n, id = JSNumber.Int n /\ 0 <= n < 10 ^ width)
            calls.*2
  /\ 5 * Z.of_nat (length calls) + 4 <= 4 * 10 ^ width
  /\ width <= 15.
Proof.
  intros Hhex Harray H. cbv zeta.
  assert (Hlen : length calls = length items).
  { destruct (assignDeterministicIds_unique _ _ _ _ _ _ _ _ _ H) as (H1 & _).
    rewrite <- (length_fmap fst), H1. apply length_sort. }
  split; [exact Hlen|].
  destruct (usedMaxLength_width maxLength (length items)) as (Hfill & Hone & _).
  pose proof (usedMaxLength_array maxLength (length items) Harray) as Hmax.
  split; [|split; [rewrite Hlen; exact Hfill | exact Hmax]].
  unfold assignDeterministicIds in H. rewrite length_sort in H.
  destruct items as [|x items].
  - cbn in H. injection H as <- <-. constructor.
  - assert (Hwidth : 1 <= usedMaxLength maxLength (length (x :: items)) <= 15)
      by (split; [apply Hone; cbn; lia | exact Hmax]).
    eapply Forall_impl; [apply (assignEach_hashes _ _ _ _ _ _ H)|].
    intros id (s & ->).
    exists (hashToBoundedInt (md4 s) (usedMaxLength maxLength (length (x :: items)))).
    split; [apply getHashNumber_exact; [apply Hhex | exact Hwidth]|].
    apply hashToBoundedInt_range. lia.
Qed.
End MoreDeterministicFacts.

Section ToyDigestFacts.
Import CharClass.

Lemma hexDigit_lowerHex (d : Z) :
  0 <= d < 16 -> isLowerHex (Samples.hexDigit d) = true.
Proof.
  intros Hd.
  assert (H : d = 0 \/ d = 1 \/ d = 2 \/ d = 3 \/ d = 4 \/ d = 5 \/ d = 6
              \/ d = 7 \/ d = 8 \/ d = 9 \/ d = 10 \/ d = 11 \/ d = 12
              \/ d = 13 \/ d = 14 \/ d = 15) by lia.
  repeat (destruct H as [->|H]; [reflexivity|]). subst d. reflexivity.
Qed.

Lemma allChars_of_list (p : ascii -> bool) (l : list ascii) :
  Forall (fun c => p c = true) l -> allChars p (string_of_list_ascii l) = true.
Proof.
  induction 1 as [|c l Hc Hl IH]; [reflexivity|].
  cbn [string_of_list_ascii allChars]. rewrite Hc. exact IH.
Qed.

(** the stand-in digest is made of lower-case hex digits *)
Lemma toyDigest_hex (s : string) : isHexDigest (Samples.toyDigest s) = true.
Proof.
  unfold isHexDigest, Samples.toyDigest. cbv zeta. apply allChars_of_list.
  apply List.Forall_map, Forall_forall. intros k _.
  apply hexDigit_lowerHex, Z.mod_pos_bound. lia.
Qed.
End ToyDigestFacts.

Lemma assignDeterministicIds_first_free_witness :
  exists i, 0 <= i
    /\ JSNumber.Int 9
       = getHashNumber Samples.toyDigest ("./b" +:+ JS.numToString i) 1
    /\ (forall j, 0 <= j < i ->
          let c := getHashNumber Samples.toyDigest ("./b" +:+ JS.numToString j) 1 in
          JSNumber.toString c ∈ ({["7"]} : gset string)
          \/ JSNumber.toString c
             ∈ JSNumber.toString <$> [(Samples.plainModule "./a", JSNumber.Int 8)].*2)
    /\ ((forall s, CharClass.isHexDigest (Samples.toyDigest s) = true) ->
        Z.of_nat (length [Samples.plainModule "./b"; Samples.plainModule "./a"])
          < 2 ^ 32 ->
        forall j, 0 <= j < i ->
          let c := getHashNumber Samples.toyDigest ("./b" +:+ JS.numToString j) 1 in
          JSNumber.toString c ∈ ({["7"]} : gset string)
          \/ c ∈ [(Samples.plainModule "./a", JSNumber.Int 8)].*2).
Proof.
  apply (assignDeterministicIds_first_free Samples.toyDigest identifier
           Samples.byIdentifier 5
           [Samples.plainModule "./b"; Samples.plainModule "./a"] (Some 1)
           {["7"]}
           [(Samples.plainModule "./a", JSNumber.Int 8);
            (Samples.plainModule "./b", JSNumber.Int 9)]
           ({["9"]} ∪ ({["8"]} ∪ {["7"]}))
           [(Samples.plainModule "./a", JSNumber.Int 8)]
           (Samples.plainModule "./b") (JSNumber.Int 9) []);
    [vm_compute; reflexivity | reflexivity].
Defined.

Lemma assignDeterministicIds_range_witness :
  length [(Samples.plainModule "./a", JSNumber.Int 8);
          (Samples.plainModule "./b", JSNumber.Int 9)]
  = length [Samples.plainModule "./b"; Samples.plainModule "./a"]
  /\ Forall (fun id => exists n, id = JSNumber.Int n /\ 0 <= n < 10 ^ 1)
            [(Samples.plainModule "./a", JSNumber.Int 8);
             (Samples.plainModule "./b", JSNumber.Int 9)].*2
  /\ 5 * Z.of_nat
           (length [(Samples.plainModule "./a", JSNumber.Int 8);
                    (Samples.plainModule "./b", JSNumber.Int 9)])
     + 4 <= 4 * 10 ^ 1
  /\ 1 <= 15.
Proof.
  apply (assignDeterministicIds_range Samples.toyDigest identifier
           Samples.byIdentifier 5
           [Samples.plainModule "./b"; Samples.plainModule "./a"] (Some 1)
           {["7"]}
           [(Samples.plainModule "./a", JSNumber.Int 8);
            (Samples.plainModule "./b", JSNumber.Int 9)]
           ({["9"]} ∪ ({["8"]} ∪ {["7"]})));
    [apply toyDigest_hex | reflexivity | vm_compute; reflexivity].
Defined.

(** ** The length of chunk names *)

Section MoreChunkNameFacts.
Variable md4 : string -> string.
Variable makePathsRelative : string -> string -> string.
Variable getChunkRootModules : Chunk -> list Module.

Lemma length_shortenLongString (s d : string) :
  (String.length d <= 94)%nat ->
  (String.length (shortenLongString md4 s d) <= 100)%nat.
Proof.
  intros Hd. destruct (le_lt_dec 100 (String.length s)) as [Hlong|Hshort].
  - rewrite shortenLongString_long by assumption.
    rewrite !length_append, length_substring_0.
    unfold getHash, JS.substr0. rewrite length_substring_0. lia.
  - rewrite shortenLongString_short by assumption. lia.
Qed.

(** Whatever the hints, the root modules and the digest are, the chunk
    name that [getShortChunkName] or [getLongChunkName] returns for a
    delimiter of at most 94 characters has at most 100 characters. *)
Theorem chunkName_length (chunk : Chunk) (context delimiter : string) :
  (String.length delimiter <= 94)%nat ->
  (String.length
     (fst (getShortChunkName md4 getChunkRootModules chunk context delimiter))
   <= 100)%nat
  /\ (String.length
        (fst (getLongChunkName md4 makePathsRelative getChunkRootModules
                               chunk context delimiter))
      <= 100)%nat.
Proof.
  intros Hd. unfold getShortChunkName, getLongChunkName. cbn [fst].
  split; apply length_shortenLongString, Hd.
Qed.
End MoreChunkNameFacts.

Lemma chunkName_length_witness :
  (String.length
     (fst (getShortChunkName Samples.toyDigest
             (fun _ => [ {| identifier := "m1";
                            libIdent := fun _ =>
                              Some "./node_modules/some-package/lib/internal/util/helpers.js" |};
                         {| identifier := "m2";
                            libIdent := fun _ => Some "1.5" |} ])
             {| name := None; id := None; ids := None;
                idNameHints := ["vendors"; "shared"] |} "/project" "~"))
   <= 100)%nat.
Proof.
  apply (chunkName_length Samples.toyDigest (fun _ s => s)
           (fun _ => [ {| identifier := "m1";
                          libIdent := fun _ =>
                            Some "./node_modules/some-package/lib/internal/util/helpers.js" |};
                       {| identifier := "m2";
                          libIdent := fun _ => Some "1.5" |} ])
           {| name := None; id := None; ids := None;
              idNameHints := ["vendors"; "shared"] |} "/project" "~").
  vm_compute. lia.
Defined.
